(** * Resume parser service: the parsing and matching core of [main.py]

    A shallow embedding of [load_skill_set], [parse_resume],
    [parse_job_description], [match_candidates] and the request handlers
    [dashboard], [upload_resume] and [upload_job], with the properties the
    specification states about them and further properties of the code.

    Conventions of the embedding.
    - Text is a [string] of [ascii] code points.  The character tables
      below ([is_space], [is_word], [char_lower], ...) are Python's tables
      restricted to the ASCII range; code points from 128 on are kept as
      uncased, non-word, non-space characters, where Python's Unicode
      tables differ.  A statement that depends on these tables therefore
      carries the hypothesis [ascii_text D = true]: on ASCII text the
      tables, and with them [lower], [title], [strip], [splitlines] and
      the patterns, are Python's.
    - The module level globals [SKILLS_SET] and [candidates] are explicit
      arguments of the functions that read them.
    - Python sets are [gset string]; [sorted] is a stable insertion sort
      (any stable sort computes the same list).
    - A score is the exact quotient of the two set sizes, in [Q].  The
      float quotient of two naturals below 2^53 is ordered and identified
      exactly as the rational one, so comparisons of scores agree. *)

From Stdlib Require Import QArith Ascii String.
From stdpp Require Import base decidable option list sorting sets gmap strings.

Local Open Scope string_scope.
#[local] Set Warnings "-clear-no-such-hyp".

(** ** Characters *)

Module Chars.

Definition ord (c : ascii) : N := N_of_ascii c.

Definition in_range (lo hi : N) (c : ascii) : bool :=
  ((lo <=? ord c) && (ord c <=? hi))%N.

Definition is_upper (c : ascii) : bool := in_range 65 90 c.
Definition is_lower (c : ascii) : bool := in_range 97 122 c.
Definition is_alpha (c : ascii) : bool := is_upper c || is_lower c.
Definition is_digit (c : ascii) : bool := in_range 48 57 c.

(** [\w] on ASCII text: letters, digits and the underscore. *)
Definition is_word (c : ascii) : bool :=
  is_alpha c || is_digit c || (ord c =? 95)%N.

(** [str.isspace] and [\s] on ASCII text: tab, LF, VT, FF, CR, the four
    separators 0x1c..0x1f and the space. *)
Definition is_space (c : ascii) : bool :=
  in_range 9 13 c || in_range 28 31 c || (ord c =? 32)%N.

(** The line boundaries of [str.splitlines] in ASCII text: LF, VT, FF, CR
    and the separators 0x1c..0x1e. *)
Definition is_linebreak (c : ascii) : bool :=
  in_range 10 13 c || in_range 28 30 c.

Definition char_lower (c : ascii) : ascii :=
  if is_upper c then ascii_of_N (ord c + 32) else c.

Definition char_upper (c : ascii) : ascii :=
  if is_lower c then ascii_of_N (ord c - 32) else c.

Definition one_of (cs : string) (c : ascii) : bool :=
  bool_decide (c ∈ list_ascii_of_string cs).

End Chars.
Import Chars.

(** ** The string methods the parsers call *)

Module Str.

Fixpoint map_chars (f : ascii → ascii) (s : string) : string :=
  match s with
  | EmptyString => EmptyString
  | String c s' => String (f c) (map_chars f s')
  end.

(** [str.lower] on ASCII text *)
Definition lower (s : string) : string := map_chars char_lower s.

(** [str.title] on ASCII text: a cased character is upper-cased when the
    character before it is not cased, and lower-cased otherwise. *)
Fixpoint title_from (previous_is_cased : bool) (s : string) : string :=
  match s with
  | EmptyString => EmptyString
  | String c s' =>
      String (if is_alpha c
              then (if previous_is_cased then char_lower c else char_upper c)
              else c)
             (title_from (is_alpha c) s')
  end.

Definition title (s : string) : string := title_from false s.

Fixpoint lstrip (s : string) : string :=
  match s with
  | EmptyString => EmptyString
  | String c s' => if is_space c then lstrip s' else s
  end.

Fixpoint rstrip (s : string) : string :=
  match s with
  | EmptyString => EmptyString
  | String c s' =>
      match rstrip s' with
      | EmptyString => if is_space c then EmptyString else String c EmptyString
      | r => String c r
      end
  end.

(** [str.strip] *)
Definition strip (s : string) : string := rstrip (lstrip s).

(** [s[:n]] *)
Fixpoint take (n : nat) (s : string) : string :=
  match n, s with
  | S n', String c s' => String c (take n' s')
  | _, _ => EmptyString
  end.

(** [str.splitlines]: [line] is the line read so far, [after_cr] tells that
    the previous character was a carriage return, whose line feed belongs
    to the same boundary. *)
Fixpoint splitlines_from (after_cr : bool) (line : string) (s : string)
  : list string :=
  match s with
  | EmptyString => if bool_decide (line = "") then [] else [line]
  | String c s' =>
      if after_cr && (ord c =? 10)%N then splitlines_from false "" s'
      else if is_linebreak c
           then line :: splitlines_from (ord c =? 13)%N "" s'
           else splitlines_from false (line ++ String c "") s'
  end.

Definition splitlines (s : string) : list string := splitlines_from false "" s.

End Str.

(** ** Regular expressions, as [re] runs them

    A backtracking matcher in continuation passing style: alternatives are
    tried from left to right, repetitions are greedy, and [search] takes the
    leftmost position at which a match exists. *)

Module Re.

Inductive regex : Type :=
  | Empty
  | Char (p : ascii → bool)
  | Seq (r1 r2 : regex)
  | Alt (r1 r2 : regex)
  | Star (r : regex)
  | Group (n : nat) (r : regex)
  | WordBoundary.

(** The matcher's position: the character just before it, the text still
    ahead, and the groups closed so far (latest first). *)
Record mstate := MState {
  prev : option ascii;
  rest : string;
  groups : list (nat * string)
}.

(** The text between two positions of one subject string. *)
Definition consumed (from to : string) : string :=
  Str.take (String.length from - String.length to) from.

Definition word_before (st : mstate) : bool :=
  match prev st with Some c => is_word c | None => false end.

Definition word_after (st : mstate) : bool :=
  match rest st with String c _ => is_word c | EmptyString => false end.

(** [\b]: exactly one side of the position is a word character. *)
Definition at_boundary (st : mstate) : bool :=
  xorb (word_before st) (word_after st).

Fixpoint re_match (r : regex) (k : mstate → option mstate) (st : mstate)
  {struct r} : option mstate :=
  match r with
  | Empty => k st
  | Char p =>
      match rest st with
      | String c s' =>
          if p c then k (MState (Some c) s' (groups st)) else None
      | EmptyString => None
      end
  | Seq r1 r2 => re_match r1 (re_match r2 k) st
  | Alt r1 r2 =>
      match re_match r1 k st with
      | Some m => Some m
      | None => re_match r2 k st
      end
  | Star r1 =>
      (fix loop (fuel : nat) (st : mstate) {struct fuel} : option mstate :=
         match fuel with
         | O => k st
         | S fuel' =>
             match re_match r1
                     (λ st', if (String.length (rest st') <? String.length (rest st))%nat
                             then loop fuel' st' else None) st with
             | Some m => Some m
             | None => k st
             end
         end) (String.length (rest st)) st
  | Group n r1 =>
      re_match r1
        (λ st', k (MState (prev st') (rest st')
                          ((n, consumed (rest st) (rest st')) :: groups st')))
        st
  | WordBoundary => if at_boundary st then k st else None
  end.

(** A match object: [group(0)] and the numbered groups. *)
Record match_obj := MatchObj {
  whole : string;
  captures : list (nat * string)
}.

Fixpoint capture (n : nat) (gs : list (nat * string)) : option string :=
  match gs with
  | [] => None
  | (i, s) :: gs' => if (i =? n)%nat then Some s else capture n gs'
  end.

(** [m.group(n)]; [None] for a group that took no part in the match. *)
Definition group (m : match_obj) (n : nat) : option string :=
  match n with
  | O => Some (whole m)
  | _ => capture n (captures m)
  end.

Fixpoint search_from (r : regex) (before : option ascii) (s : string)
  : option match_obj :=
  match re_match r Some (MState before s []) with
  | Some st => Some (MatchObj (consumed s (rest st)) (groups st))
  | None =>
      match s with
      | EmptyString => None
      | String c s' => search_from r (Some c) s'
      end
  end.

(** [re.search] *)
Definition search (r : regex) (text : string) : option match_obj :=
  search_from r None text.

(** Pattern syntax. *)
Definition chr (c : ascii) : regex := Char (Ascii.eqb c).
Definition opt (r : regex) : regex := Alt r Empty.
Definition plus (r : regex) : regex := Seq r (Star r).

Fixpoint rep (n : nat) (r : regex) : regex :=
  match n with O => Empty | S n' => Seq r (rep n' r) end.

Fixpoint upto (n : nat) (r : regex) : regex :=
  match n with O => Empty | S n' => opt (Seq r (upto n' r)) end.

(** [r{m,n}] and [r{m,}] *)
Definition rep_range (m n : nat) (r : regex) : regex :=
  Seq (rep m r) (upto (n - m) r).
Definition at_least (m : nat) (r : regex) : regex := Seq (rep m r) (Star r).

(** [re.escape(s)]: the pattern that matches [s] literally. *)
Fixpoint escape (s : string) : regex :=
  match s with
  | EmptyString => Empty
  | String c s' => Seq (chr c) (escape s')
  end.

(** A literal under the flag [(?i)], on ASCII text. *)
Fixpoint literal_i (s : string) : regex :=
  match s with
  | EmptyString => Empty
  | String c s' =>
      Seq (Char (λ x, Ascii.eqb (char_lower x) (char_lower c))) (literal_i s')
  end.

End Re.
Import Re.

(** ** The records and the parsers *)

Record Candidate := {
  name : string;
  email : string;
  phone : string;
  skills : list string;
  experience : string
}.

Record Job := {
  title : string;
  skills_required : list string;
  description : string
}.

(** A stable insertion sort: [x] is put before the first element that it
    is not after, so elements that compare equal keep their order. *)
Section Sort.
Context {A : Type} (leb : A → A → bool).

Fixpoint insert_sorted (x : A) (l : list A) : list A :=
  match l with
  | [] => [x]
  | y :: l' => if leb x y then x :: y :: l' else y :: insert_sorted x l'
  end.

Fixpoint sort_by (l : list A) : list A :=
  match l with
  | [] => []
  | x :: l' => insert_sorted x (sort_by l')
  end.
End Sort.

(** [sorted] on strings: by code points, lexicographically. *)
Definition sorted (l : list string) : list string := sort_by String.leb l.

Module Patterns.

(** [[A-Za-z0-9._%+-]+@[A-Za-z0-9.-]+\.[A-Za-z]{2,}] *)
Definition email_re : regex :=
  Seq (plus (Char (λ c, is_alpha c || is_digit c || one_of "._%+-" c)))
 (Seq (chr "@")
 (Seq (plus (Char (λ c, is_alpha c || is_digit c || one_of ".-" c)))
 (Seq (chr ".")
      (at_least 2 (Char is_alpha))))).

(** [\d] and, below, [[\s.-]], on ASCII text. *)
Definition digit : regex := Char is_digit.

(** [[\s.-]] *)
Definition separator : regex := Char (λ c, is_space c || one_of ".-" c).

(** [(\+?\d{1,3}[\s.-]?)?(\(?\d{3}\)?[\s.-]?\d{3}[\s.-]?\d{4})] *)
Definition phone_re : regex :=
  Seq (opt (Group 1 (Seq (opt (chr "+"))
                    (Seq (rep_range 1 3 digit)
                         (opt separator)))))
      (Group 2 (Seq (opt (chr "("))
               (Seq (rep 3 digit)
               (Seq (opt (chr ")"))
               (Seq (opt separator)
               (Seq (rep 3 digit)
               (Seq (opt separator)
                    (rep 4 digit)))))))).

(** [\b] + [re.escape(skill)] + [\b] *)
Definition skill_re (skill : string) : regex :=
  Seq WordBoundary (Seq (escape skill) WordBoundary).

(** [(?i)(experience|work experience)] and then the second group, any
    characters (line breaks too, under [re.DOTALL]) repeated greedily. *)
Definition experience_re : regex :=
  Seq (Group 1 (Alt (literal_i "experience") (literal_i "work experience")))
      (Group 2 (Star (Char (λ _, true)))).

End Patterns.
Import Patterns.

(** The lines of a document that are not blank, stripped. *)
Definition nonblank_lines (text : string) : list string :=
  filter (λ line, line ≠ "") (Str.strip <$> Str.splitlines text).

(** The loop both parsers run over the vocabulary. *)
Definition scan_skills (SKILLS_SET : list string) (lower_text : string)
  : gset string :=
  foldl (λ found skill,
           match search (skill_re skill) lower_text with
           | Some _ => {[ Str.title skill ]} ∪ found
           | None => found
           end)
        ∅ SKILLS_SET.

Definition parse_resume (SKILLS_SET : list string) (text : string)
  : Candidate :=
  let lines := nonblank_lines text in
  let name := match lines with l :: _ => l | [] => "" end in
  let email_match := search email_re text in
  let email := match email_match with
               | Some m => default "" (group m 0) | None => "" end in
  let phone_match := search phone_re text in
  let phone := match phone_match with
               | Some m => default "" (group m 0) | None => "" end in
  let lower_text := Str.lower text in
  let skills_found := scan_skills SKILLS_SET lower_text in
  let exp_match := search experience_re text in
  let experience :=
    match exp_match with
    | Some m => Str.take 500 (Str.strip (default "" (group m 2)))
    | None => ""
    end in
  {| name := name; email := email; phone := phone;
     skills := sorted (elements skills_found);
     experience := experience |}.

Definition parse_job_description (SKILLS_SET : list string) (text : string)
  : Job :=
  let lines := nonblank_lines text in
  let title := match lines with l :: _ => l | [] => "Untitled Job" end in
  let lower_text := Str.lower text in
  let required_skills := scan_skills SKILLS_SET lower_text in
  {| title := title;
     skills_required := sorted (elements required_skills);
     description := text |}.

(** ** The vocabulary loader

    [load_skill_set] reads a file; what the file system does is an input of
    the model: opening fails with an exception, or the file object yields
    lines until its end or until a read raises. *)

Module Vocabulary.

Inductive exn : Type :=
  | FileNotFoundError
  | PermissionError
  | OSError
  | UnicodeDecodeError
  | KeyboardInterrupt.

(** The classes [except Exception] catches: all of the above but
    [KeyboardInterrupt], which derives from [BaseException] only. *)
Definition is_Exception (e : exn) : bool :=
  match e with KeyboardInterrupt => false | _ => true end.

Inductive read_step : Type :=
  | Yield (line : string)
  | Raise (e : exn).

Inductive skills_file : Type :=
  | CannotOpen (e : exn)
  | Opened (steps : list read_step).

Inductive outcome (A : Type) : Type :=
  | Returns (a : A)
  | Propagates (e : exn).
Arguments Returns {A} a.
Arguments Propagates {A} e.

(** The [for line in f] loop on the list [skills], which lives outside the
    [try]: what was appended before a read raises stays in it. *)
Fixpoint read_lines (steps : list read_step) (skills : list string)
  : list string * option exn :=
  match steps with
  | [] => (skills, None)
  | Raise e :: _ => (skills, Some e)
  | Yield line :: steps' =>
      let skill := Str.strip line in
      read_lines steps'
        (if bool_decide (skill = "") then skills
         else skills ++ [Str.lower skill])
  end.

(** The [try] block: the state of [skills] and the exception raised, if
    any. *)
Definition try_body (f : skills_file) (skills : list string)
  : list string * option exn :=
  match f with
  | CannotOpen e => (skills, Some e)
  | Opened steps => read_lines steps skills
  end.

Definition load_skill_set (f : skills_file) : outcome (list string) :=
  let skills := [] in
  match try_body f skills with
  | (skills, None) => Returns skills
  | (skills, Some e) =>
      if is_Exception e then Returns skills else Propagates e
  end.

(** The entries a sequence of lines contributes: stripped, blank ones
    skipped, lower-cased. *)
Definition entries (lines : list string) : list string :=
  Str.lower <$> filter (λ s, s ≠ "") (Str.strip <$> lines).

(** [SKILLS_SET] for a skills file that holds the given names, one per
    line, and is read without error. *)
Definition vocabulary_of (names : list string) : list string :=
  match load_skill_set (Opened ((λ n, Yield (n ++ String "010" "")) <$> names)) with
  | Returns skills => skills
  | Propagates _ => []
  end.

End Vocabulary.
Import Vocabulary.

(** ** The matcher *)

Local Open Scope Q_scope.

Definition enumerate {A : Type} (l : list A) : list (nat * A) :=
  imap (λ idx x, (idx, x)) l.

(** The body of the loop of [match_candidates]: the score of one
    candidate. *)
Definition score (req_skills : gset string) (candidate : Candidate) : Q :=
  let cand_skills : gset string := list_to_set (skills candidate) in
  if bool_decide (cand_skills = ∅) then 0
  else
    let intersect := req_skills ∩ cand_skills in
    inject_Z (Z.of_nat (size intersect)) / inject_Z (Z.of_nat (size req_skills)).

(** The key order of [matches.sort(key=lambda x: x[1], reverse=True)]:
    [x] may stand before [y] when its score is not smaller. *)
Definition by_score_desc (x y : nat * Q) : bool := Qle_bool (snd y) (snd x).

(** The list [matches] before it is sorted. *)
Definition scored (req_skills : gset string) (candidates : list Candidate)
  : list (nat * Q) :=
  foldl (λ (matches : list (nat * Q)) '(idx, candidate),
           (matches ++ [(idx, score req_skills candidate)])%list)
        [] (enumerate candidates).

Definition match_candidates (candidates : list Candidate) (job : Job)
  : list (nat * Q) :=
  let req_skills : gset string := list_to_set (skills_required job) in
  if bool_decide (req_skills = ∅) then []
  else sort_by by_score_desc (scored req_skills candidates).

(** ** The request handlers

    The two module level lists are the state of the handlers.  A handler
    takes the state and returns the new state and its response; what the
    templates render is not modelled, a page response keeps the values the
    handler passes to the template. *)

Module Portal.

(** A parsed record as it is stored: the dictionary of the parser with the
    key [filename] that the upload handler adds. *)
Record stored (A : Type) := Stored {
  record : A;
  filename : option string
}.
Arguments Stored {A} record filename.
Arguments record {A} s.
Arguments filename {A} s.

Record store := Store {
  candidates : list (stored Candidate);
  jobs : list (stored Job)
}.

(** An uploaded file as the handlers use it: its name, and the text that
    [extract_text_from_file] returns for it, which is the empty string when
    the extraction fails.  (An [UploadFile] object is always true, so the
    guard [if not file] of the handlers never returns.) *)
Record UploadFile := {
  file_name : option string;
  raw_text : string
}.

Inductive response : Type :=
  | RedirectResponse (url : string) (status_code : nat)
  | TemplateResponse (error : option string) (shown : store)
                     (job_matches : list (list (string * Q)))
                     (status_code : nat).

(** The inner loop of [dashboard]; [None] stands for the [IndexError] of
    [candidates[cand_idx]]. *)
Definition match_list (st : store) (job : Job) : option (list (string * Q)) :=
  mapM (λ '(cand_idx, score),
          candidate ← candidates st !! cand_idx;
          Some (name (record candidate), score))
       (match_candidates (record <$> candidates st) job).

Definition job_matches_of (st : store) : option (list (list (string * Q))) :=
  mapM (λ job, match_list st (record job)) (jobs st).

Definition dashboard (st : store) : option response :=
  job_matches ← job_matches_of st;
  Some (TemplateResponse None st job_matches 200).

Definition upload_resume (SKILLS_SET : list string) (file : UploadFile)
    (st : store) : store * response :=
  let raw_text := raw_text file in
  if bool_decide (raw_text = "")
  then (st, TemplateResponse
              (Some "Failed to extract text from the uploaded resume.")
              st [] 500)
  else
    let candidate_info := parse_resume SKILLS_SET raw_text in
    (Store (candidates st ++ [Stored candidate_info (file_name file)]) (jobs st),
     RedirectResponse "/" 303).

Definition upload_job (SKILLS_SET : list string) (file : UploadFile)
    (st : store) : store * response :=
  let raw_text := raw_text file in
  if bool_decide (raw_text = "")
  then (st, TemplateResponse
              (Some "Failed to extract text from the uploaded job description.")
              st [] 500)
  else
    let job_info := parse_job_description SKILLS_SET raw_text in
    (Store (candidates st) (jobs st ++ [Stored job_info (file_name file)]),
     RedirectResponse "/" 303).

Inductive request : Type :=
  | GetDashboard
  | PostResume (file : UploadFile)
  | PostJob (file : UploadFile).

(** One request, and a sequence of requests served one after the other. *)
Definition handle (SKILLS_SET : list string) (st : store) (r : request) : store :=
  match r with
  | GetDashboard => st
  | PostResume file => fst (upload_resume SKILLS_SET file st)
  | PostJob file => fst (upload_job SKILLS_SET file st)
  end.

Definition serve (SKILLS_SET : list string) (st : store) (rs : list request)
  : store :=
  foldl (handle SKILLS_SET) st rs.

(** What a request adds to each collection: the parse of the text of an
    upload, with the name of the file, when the text is not empty. *)
Definition resume_stored (SKILLS_SET : list string) (r : request)
  : option (stored Candidate) :=
  match r with
  | PostResume file =>
      if bool_decide (raw_text file = "") then None
      else Some (Stored (parse_resume SKILLS_SET (raw_text file)) (file_name file))
  | _ => None
  end.

Definition job_stored (SKILLS_SET : list string) (r : request)
  : option (stored Job) :=
  match r with
  | PostJob file =>
      if bool_decide (raw_text file = "") then None
      else Some (Stored (parse_job_description SKILLS_SET (raw_text file))
                        (file_name file))
  | _ => None
  end.

(** The candidates as [match_candidates] reads them. *)
Definition candidate_records (st : store) : list Candidate :=
  record <$> candidates st.

End Portal.

(** The order of the ranking: a higher score first and, at equal scores,
    the candidate of the smaller index first. *)
Definition ranked_before (x y : nat * Q) : Prop :=
  snd y < snd x ∨ (snd x == snd y ∧ (fst x < fst y)%nat).

Definition scenario1_text : string :=
  ("Jane Doe" ++ String "010" "jane@x.com" ++ String "010" "555-123-4567"
  ++ String "010" "Skills: Python, SQL, Excel"
  ++ String "010" "Experience: built pipelines for 3 years.")%string.

(** Scenario 3 of the specification: a job that requires Python and Sql,
    candidate A with three skills and candidate B with one; B is stored
    first here. *)
Definition candidate_with (n : string) (l : list string) : Candidate :=
  {| name := n; email := ""; phone := ""; skills := l; experience := "" |}.

Definition scenario3_job : Job :=
  {| title := "Data engineer"; skills_required := ["Python"; "Sql"];
     description := "" |}.

Definition scenario3_candidates : list Candidate :=
  [ candidate_with "B" ["Python"];
    candidate_with "A" ["Python"; "Sql"; "Excel"];
    candidate_with "C" [];
    candidate_with "D" ["Sql"] ].

(** A skills file whose second read fails, after one line was delivered. *)
Definition interrupted_file : skills_file :=
  Opened [Yield ("Python" ++ String "010" "")%string; Raise OSError;
          Yield ("SQL" ++ String "010" "")%string].

(** A word [w] inside [pre ++ w ++ post] is delimited when [pre] does not
    end with a word character and [post] does not start with one. *)
Fixpoint last_char (before : option ascii) (s : string) : option ascii :=
  match s with
  | EmptyString => before
  | String c s' => last_char (Some c) s'
  end.

Definition first_char (s : string) : option ascii :=
  match s with
  | EmptyString => None
  | String c _ => Some c
  end.



(** A position between two characters is a word boundary when exactly one
    of them is a word character; [None] stands for an end of the text. *)
Definition word_char (c : option ascii) : bool :=
  match c with Some c => is_word c | None => false end.

Definition boundary (a b : option ascii) : bool :=
  xorb (word_char a) (word_char b).

(** [s] stands as a whole word between [pre] and [post]: there is a word
    boundary on both of its sides. *)
Definition whole_word (pre s post : string) : Prop :=
  boundary (last_char None pre) (first_char (s ++ post)) = true ∧
  boundary (last_char None (pre ++ s)) (first_char post) = true.

(** [w] is a contiguous part of [D]. *)
Definition occurs_in (w D : string) : Prop :=
  ∃ pre post, D = (pre ++ w ++ post)%string.

(** Every character of [s] is in the class [q]. *)
Fixpoint all_chars (q : ascii → bool) (s : string) : bool :=
  match s with
  | EmptyString => true
  | String c s' => q c && all_chars q s'
  end.

(** The pattern [r] consumes characters of the class [q] only. *)
Fixpoint accepts_only (q : ascii → bool) (r : regex) : Prop :=
  match r with
  | Empty | WordBoundary => True
  | Char p => ∀ c, p c = true → q c = true
  | Seq r1 r2 | Alt r1 r2 => accepts_only q r1 ∧ accepts_only q r2
  | Star r1 | Group _ r1 => accepts_only q r1
  end.

(** The least number of characters a match of [r] consumes. *)
Fixpoint min_len (r : regex) : nat :=
  match r with
  | Empty | WordBoundary | Star _ => 0
  | Char _ => 1
  | Seq r1 r2 => min_len r1 + min_len r2
  | Alt r1 r2 => min_len r1 `min` min_len r2
  | Group _ r1 => min_len r1
  end.

(** A text of ASCII characters only.  On such a text the character tables
    of this file are those of Python. *)
Definition ascii_char (c : ascii) : bool := (ord c <? 128)%N.

Definition ascii_text (s : string) : bool := all_chars ascii_char s.



(** The characters of an email address and of a phone number, as the two
    patterns of [parse_resume] admit them. *)
Definition email_char (c : ascii) : bool :=
  is_alpha c || is_digit c || one_of "._%+-@" c.

Definition phone_char (c : ascii) : bool :=
  is_digit c || is_space c || one_of "+().-" c.

(** A text without a line boundary, and a text that does not start or end
    with white space. *)
Definition one_line (s : string) : Prop :=
  all_chars (λ c, negb (is_linebreak c)) s = true.

Definition space_char (c : option ascii) : bool :=
  match c with Some c => is_space c | None => false end.

Definition trimmed (s : string) : Prop :=
  space_char (first_char s) = false ∧ space_char (last_char None s) = false.

(** What may follow a line that has been stripped: white space up to the
    end of the text or up to a line boundary. *)
Fixpoint line_ends (rest : string) : bool :=
  match rest with
  | EmptyString => true
  | String c r => is_linebreak c || (is_space c && line_ends r)
  end.

(** [t] is the first line of [D] that is not blank, without the white
    space at its ends: only white space stands before it, and its line
    ends after it. *)
Definition first_nonblank_line (t D : string) : Prop :=
  ∃ ws rest, D = (ws ++ t ++ rest)%string ∧
             all_chars is_space ws = true ∧
             t ≠ "" ∧ trimmed t ∧ one_line t ∧
             line_ends rest = true.

(** Two candidates who hold the same required skill of [scenario3_job],
    the second one with skills the job does not ask for. *)
Definition padded_candidates : list Candidate :=
  [ candidate_with "B" ["Python"];
    candidate_with "E" ["Excel"; "Python"; "Docker"; "Python"];
    candidate_with "F" ["Excel"] ].

(** * Properties *)

(** ** The sort *)

Section SortFacts.
Context {A : Type} (leb : A → A → bool).

Lemma insert_sorted_perm (x : A) (l : list A) :
  insert_sorted leb x l ≡ₚ x :: l.
Proof.
  induction l as [|y l IH]; simpl; [done|].
  destruct (leb x y); [done|].
  rewrite IH. apply Permutation_swap.
Qed.

Lemma sort_by_perm (l : list A) : sort_by leb l ≡ₚ l.
Proof.
  induction l as [|x l IH]; simpl; [done|].
  by rewrite insert_sorted_perm, IH.
Qed.
End SortFacts.

(** ** Scores *)

Section Ratio.
Variables a b c : nat.
Hypothesis Hb : (0 < b)%nat.

Let den : inject_Z (Z.of_nat b) = inject_Z (Z.pos (Pos.of_nat b)).
Proof. f_equal. lia. Qed.

Lemma ratio_nonneg : 0 <= inject_Z (Z.of_nat a) / inject_Z (Z.of_nat b).
Proof.
  rewrite den, <- Qmake_Qdiv. unfold Qle; simpl. lia.
Qed.

Lemma ratio_le_1 :
  (a ≤ b)%nat → inject_Z (Z.of_nat a) / inject_Z (Z.of_nat b) <= 1.
Proof.
  intros Hab. rewrite den, <- Qmake_Qdiv. unfold Qle; simpl. lia.
Qed.

Lemma ratio_eq_1 :
  inject_Z (Z.of_nat a) / inject_Z (Z.of_nat b) == 1 ↔ a = b.
Proof.
  rewrite den, <- Qmake_Qdiv. unfold Qeq; simpl. lia.
Qed.

Lemma ratio_mono :
  (a ≤ c)%nat →
  inject_Z (Z.of_nat a) / inject_Z (Z.of_nat b)
  <= inject_Z (Z.of_nat c) / inject_Z (Z.of_nat b).
Proof.
  intros Hac. rewrite den, <- !Qmake_Qdiv. unfold Qle; simpl. nia.
Qed.
End Ratio.

Lemma list_to_set_nonempty (l : list string) :
  l ≠ [] → (list_to_set l : gset string) ≠ ∅.
Proof.
  destruct l as [|x l]; [done|]. intros _ H.
  assert (x ∈ (∅ : gset string)) by (rewrite <- H; set_solver).
  set_solver.
Qed.

Section Score.
Variable req : gset string.
Hypothesis req_nonempty : req ≠ ∅.

Let size_pos : (0 < size req)%nat.
Proof.
  destruct (size req) eqn:E; [|lia].
  apply size_empty_iff in E. exfalso. apply req_nonempty.
  by apply leibniz_equiv.
Qed.

Lemma score_nonneg (c : Candidate) : 0 <= score req c.
Proof.
  unfold score. case_bool_decide as Hc; [apply Qle_refl|].
  by apply ratio_nonneg.
Qed.

Lemma score_le_1 (c : Candidate) : score req c <= 1.
Proof.
  unfold score. case_bool_decide as Hc; [discriminate|].
  apply ratio_le_1; [done|].
  apply subseteq_size. set_solver.
Qed.

Lemma score_eq_1 (c : Candidate) :
  score req c == 1 ↔ req ⊆ list_to_set (skills c).
Proof.
  unfold score. case_bool_decide as Hc.
  - rewrite Hc. split; [done|].
    intros Hsub. exfalso. apply req_nonempty. set_solver.
  - rewrite ratio_eq_1 by done. split.
    + intros Hsz.
      assert (req ∩ list_to_set (skills c) = req) as Heq.
      { apply set_subseteq_size_eq; [set_solver|lia]. }
      set_solver.
    + intros Hsub. f_equal. set_solver.
Qed.

Lemma score_mono (a b : Candidate) :
  (list_to_set (skills b) : gset string) ⊆ list_to_set (skills a) →
  score req b <= score req a.
Proof.
  intros Hsub. unfold score at 1. case_bool_decide as Hb.
  - apply score_nonneg.
  - unfold score. case_bool_decide as Ha.
    + exfalso. apply Hb. set_solver.
    + apply ratio_mono; [done|]. apply subseteq_size. set_solver.
Qed.
End Score.

(** ** The list of matches *)

Lemma scored_imap (req : gset string) (cs : list Candidate) :
  scored req cs = imap (λ idx c, (idx, score req c)) cs.
Proof.
  unfold scored, enumerate.
  assert (∀ (l : list (nat * Candidate)) acc,
            foldl (λ (matches : list (nat * Q)) '(idx, candidate),
                     (matches ++ [(idx, score req candidate)])%list) acc l
            = (acc ++ ((λ p, (fst p, score req (snd p))) <$> l))%list) as Hfold.
  { induction l as [|[i c] l IH]; intros acc; simpl.
    - by rewrite app_nil_r.
    - by rewrite IH, <- app_assoc. }
  rewrite Hfold, fmap_imap. simpl. done.
Qed.

Lemma scored_lookup (req : gset string) (cs : list Candidate) (i : nat) :
  scored req cs !! i = (λ c, (i, score req c)) <$> cs !! i.
Proof. by rewrite scored_imap, list_lookup_imap. Qed.

Lemma scored_indices (req : gset string) (cs : list Candidate) :
  (scored req cs).*1 = seq 0 (length cs).
Proof.
  rewrite scored_imap, fmap_imap.
  rewrite <- (list_fmap_id (seq 0 (length cs))), <- (imap_seq_0 cs id).
  reflexivity.
Qed.

(** The matches are built in the order of the candidates' indices. *)
Lemma scored_ascending (req : gset string) (cs : list Candidate) :
  StronglySorted (λ x y, (fst x < fst y)%nat) (scored req cs).
Proof.
  assert (StronglySorted lt ((scored req cs).*1)) as Hs.
  { rewrite scored_indices. generalize 0%nat.
    induction (length cs) as [|n IH]; intros k; simpl; constructor.
    - apply IH.
    - apply Forall_forall. intros x Hx%elem_of_seq. lia. }
  revert Hs. induction (scored req cs) as [|x l IH]; simpl; [constructor|].
  intros [Hl Hx]%StronglySorted_inv. constructor; [by apply IH|].
  by rewrite Forall_fmap in Hx.
Qed.

(** ** The ranking *)

Lemma insert_ranked (x : nat * Q) (l : list (nat * Q)) :
  StronglySorted ranked_before l →
  Forall (λ y, (fst x < fst y)%nat) l →
  StronglySorted ranked_before (insert_sorted by_score_desc x l).
Proof.
  induction l as [|y l IH]; simpl; intros Hl Hx.
  - repeat constructor.
  - apply StronglySorted_inv in Hl as [Hl Hy].
    apply Forall_cons in Hx as [Hxy Hx].
    unfold by_score_desc at 1.
    destruct (Qle_bool (snd y) (snd x)) eqn:E.
    + apply Qle_bool_iff in E.
      constructor; [by constructor|].
      assert (ranked_before x y) as Hfirst.
      { destruct (Qle_lt_or_eq _ _ E) as [?|?]; [by left|].
        right. split; [by symmetry|done]. }
      constructor; [done|].
      rewrite Forall_forall in Hy, Hx |- *. intros z Hz.
      specialize (Hy z Hz). specialize (Hx z Hz).
      destruct Hy as [Hlt|[Heq Hidx]].
      * left. eapply Qlt_le_trans; eauto.
      * destruct Hfirst as [Hlt'|[Heq' _]].
        -- left. by rewrite <- Heq.
        -- right. split; [by rewrite Heq'|done].
    + assert (snd x < snd y) as Hlt.
      { apply Qnot_le_lt. intros H%Qle_bool_iff. congruence. }
      constructor; [by apply IH|].
      rewrite (insert_sorted_perm by_score_desc x l).
      constructor; [by left|done].
Qed.

Lemma sort_ranked (l : list (nat * Q)) :
  StronglySorted (λ x y, (fst x < fst y)%nat) l →
  StronglySorted ranked_before (sort_by by_score_desc l).
Proof.
  induction l as [|x l IH]; simpl; intros Hl; [constructor|].
  apply StronglySorted_inv in Hl as [Hl Hx].
  apply insert_ranked; [by apply IH|].
  by rewrite (sort_by_perm by_score_desc l).
Qed.

Lemma StronglySorted_lookup {A : Type} (R : A → A → Prop) (l : list A)
    (i j : nat) (x y : A) :
  StronglySorted R l → l !! i = Some x → l !! j = Some y →
  (i < j)%nat → R x y.
Proof.
  intros Hl. revert i j. induction Hl as [|a l Hl IH Ha]; intros i j Hi Hj Hij.
  - by rewrite lookup_nil in Hi.
  - destruct j as [|j]; [lia|]. destruct i as [|i]; simpl in *.
    + injection Hi as <-. rewrite Forall_forall in Ha.
      apply Ha. by eapply list_elem_of_lookup_2.
    + eapply IH; eauto. lia.
Qed.


Lemma match_candidates_unfold (cs : list Candidate) (job : Job) :
  skills_required job ≠ [] →
  match_candidates cs job
  = sort_by by_score_desc (scored (list_to_set (skills_required job)) cs).
Proof.
  intros Hreq%list_to_set_nonempty. unfold match_candidates.
  by rewrite bool_decide_eq_false_2.
Qed.

Lemma match_candidates_lookup (cs : list Candidate) (job : Job)
    (p i : nat) (sc : Q) :
  skills_required job ≠ [] →
  match_candidates cs job !! p = Some (i, sc) →
  ∃ c, cs !! i = Some c ∧ sc = score (list_to_set (skills_required job)) c.
Proof.
  intros Hreq Hp. rewrite match_candidates_unfold in Hp by done.
  apply list_elem_of_lookup_2 in Hp.
  rewrite (sort_by_perm by_score_desc) in Hp.
  apply list_elem_of_lookup_1 in Hp as [k Hk].
  rewrite scored_lookup in Hk.
  destruct (cs !! k) as [c|] eqn:E; simplify_eq/=. eauto.
Qed.

(** ** The claims about [match_candidates] *)

(** C2. For a job whose set of required skills is not empty, every pair
    [(i, sc)] of the result carries the index of a candidate and a score
    between 0 and 1, and the score is 1 exactly when the candidate's skill
    set includes the required one. *)
Theorem match_candidates_score_bounds (cs : list Candidate) (job : Job)
    (p i : nat) (sc : Q) :
  skills_required job ≠ [] →
  match_candidates cs job !! p = Some (i, sc) →
  ∃ c, cs !! i = Some c ∧ 0 <= sc ∧ sc <= 1 ∧
       (sc == 1 ↔ (list_to_set (skills_required job) : gset string)
                    ⊆ list_to_set (skills c)).
Proof.
  intros Hreq Hp.
  destruct (match_candidates_lookup cs job p i sc Hreq Hp) as (c & Hc & ->).
  apply list_to_set_nonempty in Hreq.
  exists c. split; [done|].
  split; [by apply score_nonneg|].
  split; [by apply score_le_1|by apply score_eq_1].
Qed.

Lemma match_candidates_score_bounds_witness :
  ∃ c, scenario3_candidates !! 1%nat = Some c ∧ 0 <= 2 # 2 ∧ 2 # 2 <= 1 ∧
       (2 # 2 == 1 ↔ (list_to_set (skills_required scenario3_job) : gset string)
                        ⊆ list_to_set (skills c)).
Proof.
  apply (match_candidates_score_bounds scenario3_candidates scenario3_job 0 1 (2 # 2)).
  - discriminate.
  - vm_compute. reflexivity.
Defined.

(** C3. When the job's set of required skills is empty the result is the
    empty list, whatever the candidates are. *)
Theorem match_candidates_no_requirements (cs : list Candidate) (job : Job) :
  (list_to_set (skills_required job) : gset string) = ∅ →
  match_candidates cs job = [].
Proof.
  intros Hreq. unfold match_candidates. by rewrite bool_decide_eq_true_2.
Qed.

Lemma match_candidates_no_requirements_witness :
  match_candidates scenario3_candidates
    {| title := "Untitled Job"; skills_required := []; description := "" |} = [].
Proof.
  apply match_candidates_no_requirements. reflexivity.
Defined.

(** C4. For one job with required skills, a candidate whose skill set
    includes that of another candidate is not scored lower. *)
Theorem match_candidates_monotone (cs : list Candidate) (job : Job)
    (pa pb ia ib : nat) (A B : Candidate) (sa sb : Q) :
  skills_required job ≠ [] →
  cs !! ia = Some A → cs !! ib = Some B →
  match_candidates cs job !! pa = Some (ia, sa) →
  match_candidates cs job !! pb = Some (ib, sb) →
  (list_to_set (skills B) : gset string) ⊆ list_to_set (skills A) →
  sb <= sa.
Proof.
  intros Hreq HA HB Hpa Hpb Hsub.
  destruct (match_candidates_lookup cs job pa ia sa Hreq Hpa) as (a & Ha & ->).
  destruct (match_candidates_lookup cs job pb ib sb Hreq Hpb) as (b & Hb & ->).
  simplify_eq. apply score_mono; [by apply list_to_set_nonempty|done].
Qed.

Lemma match_candidates_monotone_witness : 1 # 2 <= 2 # 2.
Proof.
  apply (match_candidates_monotone scenario3_candidates scenario3_job
           0 1 1 0 (candidate_with "A" ["Python"; "Sql"; "Excel"])
           (candidate_with "B" ["Python"])).
  - discriminate.
  - reflexivity.
  - reflexivity.
  - vm_compute. reflexivity.
  - vm_compute. reflexivity.
  - apply (bool_decide_unpack _). vm_compute. exact I.
Defined.

(** C5. The result is ordered by descending score, and two candidates of
    equal score stand in the order of their indices, that is in the order
    in which they were stored. *)
Theorem match_candidates_stable_descending (cs : list Candidate) (job : Job)
    (p1 p2 i1 i2 : nat) (s1 s2 : Q) :
  skills_required job ≠ [] →
  match_candidates cs job !! p1 = Some (i1, s1) →
  match_candidates cs job !! p2 = Some (i2, s2) →
  (p1 < p2)%nat →
  s2 <= s1 ∧ (s1 == s2 → (i1 < i2)%nat).
Proof.
  intros Hreq H1 H2 Hlt. rewrite match_candidates_unfold in H1, H2 by done.
  pose proof (sort_ranked _ (scored_ascending
                (list_to_set (skills_required job)) cs)) as Hsorted.
  destruct (StronglySorted_lookup _ _ _ _ _ _ Hsorted H1 H2 Hlt)
    as [Hgt|[Heq Hidx]]; simpl in *.
  - split; [by apply Qlt_le_weak|].
    intros Heq. rewrite Heq in Hgt. by apply Qlt_irrefl in Hgt.
  - split; [|done]. rewrite Heq. apply Qle_refl.
Qed.

Lemma match_candidates_stable_descending_witness :
  1 # 2 <= 1 # 2 ∧ (1 # 2 == 1 # 2 → (0 < 3)%nat).
Proof.
  apply (match_candidates_stable_descending scenario3_candidates scenario3_job
           1 2 0 3 (1 # 2) (1 # 2)).
  - discriminate.
  - vm_compute. reflexivity.
  - vm_compute. reflexivity.
  - lia.
Defined.

(** C10. For a job with required skills the result has one pair per
    candidate, and its indices are a permutation of [0 .. n-1]: no
    candidate is left out, whatever the score. *)
Theorem match_candidates_total (cs : list Candidate) (job : Job) :
  skills_required job ≠ [] →
  length (match_candidates cs job) = length cs ∧
  (match_candidates cs job).*1 ≡ₚ seq 0 (length cs).
Proof.
  intros Hreq. rewrite match_candidates_unfold by done.
  pose proof (sort_by_perm by_score_desc
                (scored (list_to_set (skills_required job)) cs)) as Hperm.
  split.
  - rewrite Hperm, scored_imap. apply length_imap.
  - rewrite Hperm. by rewrite scored_indices.
Qed.

Lemma match_candidates_total_witness :
  length (match_candidates scenario3_candidates scenario3_job) = 4%nat ∧
  (match_candidates scenario3_candidates scenario3_job).*1 ≡ₚ [0; 1; 2; 3]%nat.
Proof.
  apply (match_candidates_total scenario3_candidates scenario3_job).
  discriminate.
Defined.

(** ** The vocabulary loader *)

Lemma read_lines_yield (lines : list string) (rest : list read_step)
    (acc : list string) :
  read_lines ((Yield <$> lines) ++ rest) acc
  = read_lines rest (acc ++ entries lines).
Proof.
  revert acc. induction lines as [|l lines IH]; intros acc; simpl.
  - by rewrite app_nil_r.
  - rewrite IH. f_equal. unfold entries. simpl.
    rewrite filter_cons. case_bool_decide as Hl.
    + by rewrite decide_False by (by intros []).
    + rewrite decide_True by done. simpl. by rewrite <- app_assoc.
Qed.

(** A file that is read to its end gives the entries of all its lines. *)
Lemma load_skill_set_complete (lines : list string) :
  load_skill_set (Opened (Yield <$> lines)) = Returns (entries lines).
Proof.
  unfold load_skill_set. simpl.
  rewrite <- (app_nil_r (Yield <$> lines)), read_lines_yield. done.
Qed.

(** C6, as the code has it.  A failure of the load never propagates: when
    the file cannot be opened the result is the empty list, and when a
    read raises after some lines were delivered the result is the list of
    the entries of those lines (empty only if none of them held a name). *)
Theorem load_skill_set_failure (e : exn) (lines : list string)
    (rest : list read_step) :
  is_Exception e = true →
  load_skill_set (CannotOpen e) = Returns [] ∧
  load_skill_set (Opened ((Yield <$> lines) ++ Raise e :: rest))
  = Returns (entries lines).
Proof.
  intros He. unfold load_skill_set. simpl. rewrite He. split; [done|].
  rewrite read_lines_yield. simpl. by rewrite He.
Qed.

Lemma load_skill_set_failure_witness :
  load_skill_set (CannotOpen OSError) = Returns [] ∧
  load_skill_set interrupted_file = Returns ["python"].
Proof.
  apply (load_skill_set_failure OSError
           [("Python" ++ String "010" "")%string]
           [Yield ("SQL" ++ String "010" "")%string]).
  reflexivity.
Defined.

(** C6, as the specification has it, fails: the load of
    [interrupted_file] fails with an [OSError] at its second read, and the
    result is not the empty list. *)
Lemma load_skill_set_failure_not_empty :
  snd (try_body interrupted_file []) = Some OSError ∧
  is_Exception OSError = true ∧
  load_skill_set interrupted_file ≠ Returns [].
Proof.
  split; [reflexivity|]. split; [reflexivity|]. vm_compute. discriminate.
Qed.

(** ** The parsers *)

Lemma char_lower_idemp (c : ascii) : char_lower (char_lower c) = char_lower c.
Proof. destruct c as [[] [] [] [] [] [] [] []]; reflexivity. Qed.

Lemma char_lower_upper (c : ascii) : char_lower (char_upper c) = char_lower c.
Proof. destruct c as [[] [] [] [] [] [] [] []]; reflexivity. Qed.


(** Title case changes the case of letters only. *)
Lemma lower_title (s : string) : Str.lower (Str.title s) = Str.lower s.
Proof.
  unfold Str.title, Str.lower. generalize false.
  induction s as [|c s IH]; intros b; simpl; [done|].
  rewrite IH. f_equal.
  destruct (is_alpha c); [|done].
  destruct b; [apply char_lower_idemp|apply char_lower_upper].
Qed.


Lemma sorted_elem_of (x : string) (l : list string) : x ∈ sorted l ↔ x ∈ l.
Proof. unfold sorted. by rewrite (sort_by_perm String.leb l). Qed.

(** What the scan puts into the set: the title-cased form of the entries
    that the search finds in the text. *)
Lemma scan_skills_elem_of (S : list string) (text x : string) :
  x ∈ scan_skills S text ↔
  ∃ s, s ∈ S ∧ x = Str.title s ∧ is_Some (search (skill_re s) text).
Proof.
  unfold scan_skills.
  assert (∀ acc : gset string,
            x ∈ foldl (λ found skill,
                         match search (skill_re skill) text with
                         | Some _ => {[ Str.title skill ]} ∪ found
                         | None => found
                         end) acc S
            ↔ x ∈ acc ∨
              ∃ s, s ∈ S ∧ x = Str.title s ∧ is_Some (search (skill_re s) text))
    as Hfold.
  { induction S as [|s S IH]; intros acc; simpl.
    - split; [by left|]. intros [?|(s & Hs & _)]; [done|].
      by apply elem_of_nil in Hs.
    - rewrite IH. split.
      + intros [Hacc|(s' & Hs' & Hx & Hfound)].
        * destruct (search (skill_re s) text) eqn:E; [|by left].
          apply elem_of_union in Hacc as [->%elem_of_singleton|?]; [|by left].
          right. exists s. rewrite E. split; [left|]. eauto.
        * right. exists s'. split; [by right|done].
      + intros [Hacc|(s' & Hs' & Hx & Hfound)].
        * left. destruct (search (skill_re s) text); set_solver.
        * apply elem_of_cons in Hs' as [->|Hs'].
          -- left. destruct Hfound as [m ->]. set_solver.
          -- right. eauto. }
  rewrite Hfold. set_solver.
Qed.





Lemma scan_skills_empty_text (S : list string) : scan_skills S "" = ∅.
Proof.
  unfold scan_skills. generalize (∅ : gset string).
  induction S as [|s S IH]; intros acc; simpl; [done|].
  by rewrite IH.
Qed.

(** C9. For the empty document [parse_resume] returns the record whose
    name, email, phone and experience are the empty string and whose list
    of skills is empty, whatever the vocabulary is. *)
Theorem parse_resume_empty_text (S : list string) :
  parse_resume S "" =
  {| name := ""; email := ""; phone := ""; skills := []; experience := "" |}.
Proof.
  unfold parse_resume. simpl Str.lower. rewrite scan_skills_empty_text.
  vm_compute. reflexivity.
Qed.

(** C7, as the code has it.  With the vocabulary that [load_skill_set]
    reads from the lines Python and SQL, scenario 1 gives the name, email,
    phone and skills the specification lists, and the experience field is
    the text after the heading, which starts with the colon. *)
Theorem parse_resume_scenario1 :
  parse_resume (vocabulary_of ["Python"; "SQL"]) scenario1_text =
  {| name := "Jane Doe"; email := "jane@x.com"; phone := "555-123-4567";
     skills := ["Python"; "Sql"];
     experience := ": built pipelines for 3 years." |}.
Proof. vm_compute. reflexivity. Qed.

(** C7, as the specification has it, fails: the experience field of
    scenario 1 does not start with the words built pipelines. *)
Lemma parse_resume_scenario1_experience :
  ¬ (let r := parse_resume (vocabulary_of ["Python"; "SQL"]) scenario1_text in
     name r = "Jane Doe" ∧ email r = "jane@x.com" ∧ phone r = "555-123-4567" ∧
     skills r = ["Python"; "Sql"] ∧
     String.prefix "built pipelines" (experience r) = true).
Proof.
  vm_compute. intros (_ & _ & _ & _ & H). discriminate H.
Qed.

(** ** Whole words *)





Lemma last_char_lower (before : option ascii) (s : string) :
  last_char (char_lower <$> before) (Str.lower s)
  = char_lower <$> last_char before s.
Proof.
  revert before. induction s as [|c s IH]; intros before; simpl; [done|].
  apply (IH (Some c)).
Qed.







(** * Further properties of the code *)

(** ** The matcher *)

Lemma match_candidates_ranked (cs : list Candidate) (job : Job) :
  StronglySorted ranked_before (match_candidates cs job).
Proof.
  unfold match_candidates. case_bool_decide; [constructor|].
  apply sort_ranked, scored_ascending.
Qed.

Lemma ranked_before_asymm (x y : nat * Q) :
  ranked_before x y → ranked_before y x → x = y.
Proof.
  intros [H1|[H1 I1]] [H2|[H2 I2]]; exfalso.
  - by apply (Qlt_irrefl (snd x)), (Qlt_trans _ (snd y)).
  - rewrite H2 in H1. by apply Qlt_irrefl in H1.
  - rewrite H1 in H2. by apply Qlt_irrefl in H2.
  - lia.
Qed.

Lemma ranked_unique (l1 l2 : list (nat * Q)) :
  l1 ≡ₚ l2 → StronglySorted ranked_before l1 →
  StronglySorted ranked_before l2 → l1 = l2.
Proof.
  intros Hperm H1 H2.
  by apply (StronglySorted_unique ranked_before
              (AntiSymm0 := ranked_before_asymm)).
Qed.

(** The ranking is determined by the scores and the indices alone: a
    rearrangement of the result that is ordered by descending score, with
    ties in the order of the indices, is the result.  So every stable sort
    gives the list that [match_candidates] returns. *)
Theorem match_candidates_unique (cs : list Candidate) (job : Job)
    (l : list (nat * Q)) :
  l ≡ₚ match_candidates cs job →
  StronglySorted ranked_before l →
  l = match_candidates cs job.
Proof.
  intros Hperm Hl. apply ranked_unique; [done..|].
  apply match_candidates_ranked.
Qed.

Lemma match_candidates_unique_witness :
  [(1%nat, 2 # 2); (0%nat, 1 # 2); (3%nat, 1 # 2); (2%nat, 0)]
  = match_candidates scenario3_candidates scenario3_job.
Proof.
  apply match_candidates_unique.
  - vm_compute. reflexivity.
  - repeat (apply SSorted_cons || apply SSorted_nil
            || apply Forall_cons_2 || apply Forall_nil_2);
      first [ left; vm_compute; reflexivity
            | right; split; [vm_compute; reflexivity | simpl; lia] ].
Defined.

Lemma ratio_eq_0 (a b : nat) :
  (0 < b)%nat →
  inject_Z (Z.of_nat a) / inject_Z (Z.of_nat b) == 0 ↔ a = 0%nat.
Proof.
  intros Hb.
  replace (Z.of_nat b) with (Z.pos (Pos.of_nat b)) by lia.
  rewrite <- Qmake_Qdiv. unfold Qeq; simpl. lia.
Qed.

Lemma size_pos_nonempty (X : gset string) : X ≠ ∅ → (0 < size X)%nat.
Proof.
  intros HX. destruct (size X) eqn:E; [|lia].
  apply size_empty_iff in E. destruct HX. by apply leibniz_equiv.
Qed.

Lemma score_eq_0 (req : gset string) (c : Candidate) :
  req ≠ ∅ →
  score req c == 0 ↔ req ∩ list_to_set (skills c) = ∅.
Proof.
  intros Hreq. unfold score. case_bool_decide as Hc.
  - rewrite Hc. split; [set_solver|done].
  - rewrite ratio_eq_0 by by apply size_pos_nonempty.
    rewrite size_empty_iff. split; [apply leibniz_equiv|by intros ->].
Qed.

Lemma score_required_only (req : gset string) (a b : Candidate) :
  req ≠ ∅ →
  req ∩ list_to_set (skills a) = req ∩ list_to_set (skills b) →
  score req a == score req b.
Proof.
  intros Hreq Hsame.
  destruct (decide (req ∩ list_to_set (skills a) = ∅)) as [Ha|Ha].
  - assert (score req a == 0) as -> by by apply score_eq_0.
    symmetry. apply score_eq_0; [done|]. by rewrite <- Hsame.
  - unfold score. rewrite !bool_decide_eq_false_2, Hsame; [done| |].
    + intros Hb. apply Ha. rewrite Hsame, Hb. set_solver.
    + intros Hb. apply Ha. rewrite Hb. set_solver.
Qed.

(** The score of a candidate depends on the required skills the candidate
    holds and on nothing else: two candidates whose skill sets meet the
    required set in the same skills get equal scores, whatever other
    skills, repetitions or order their lists have. *)
Theorem match_candidates_required_only (cs : list Candidate) (job : Job)
    (pa pb ia ib : nat) (A B : Candidate) (sa sb : Q) :
  skills_required job ≠ [] →
  cs !! ia = Some A → cs !! ib = Some B →
  match_candidates cs job !! pa = Some (ia, sa) →
  match_candidates cs job !! pb = Some (ib, sb) →
  (list_to_set (skills_required job) : gset string) ∩ list_to_set (skills A)
  = list_to_set (skills_required job) ∩ list_to_set (skills B) →
  sa == sb.
Proof.
  intros Hreq HA HB Hpa Hpb Hsame.
  destruct (match_candidates_lookup cs job pa ia sa Hreq Hpa) as (a & Ha & ->).
  destruct (match_candidates_lookup cs job pb ib sb Hreq Hpb) as (b & Hb & ->).
  simplify_eq. apply score_required_only; [by apply list_to_set_nonempty|done].
Qed.

Lemma match_candidates_required_only_witness : 1 # 2 == 1 # 2.
Proof.
  apply (match_candidates_required_only padded_candidates scenario3_job
           0 1 0 1 (candidate_with "B" ["Python"])
           (candidate_with "E" ["Excel"; "Python"; "Docker"; "Python"])).
  - discriminate.
  - reflexivity.
  - reflexivity.
  - vm_compute. reflexivity.
  - vm_compute. reflexivity.
  - apply (bool_decide_unpack _). vm_compute. exact I.
Defined.

(** A candidate is scored 0 exactly when the candidate holds none of the
    required skills. *)
Theorem match_candidates_zero_score (cs : list Candidate) (job : Job)
    (p i : nat) (c : Candidate) (sc : Q) :
  skills_required job ≠ [] →
  cs !! i = Some c →
  match_candidates cs job !! p = Some (i, sc) →
  sc == 0 ↔ (list_to_set (skills_required job) : gset string)
             ∩ list_to_set (skills c) = ∅.
Proof.
  intros Hreq Hc Hp.
  destruct (match_candidates_lookup cs job p i sc Hreq Hp) as (c' & Hc' & ->).
  simplify_eq. apply score_eq_0. by apply list_to_set_nonempty.
Qed.

Lemma match_candidates_zero_score_witness :
  0 # 2 == 0 ↔ (list_to_set (skills_required scenario3_job) : gset string)
               ∩ list_to_set (skills (candidate_with "F" ["Excel"])) = ∅.
Proof.
  apply (match_candidates_zero_score padded_candidates scenario3_job 2 2).
  - discriminate.
  - reflexivity.
  - vm_compute. reflexivity.
Defined.

Lemma StronglySorted_filter {A : Type} (R : A → A → Prop) (P : A → Prop)
    `{∀ x, Decision (P x)} (l : list A) :
  StronglySorted R l → StronglySorted R (filter P l).
Proof.
  induction 1 as [|x l Hl IH Hx]; [constructor|].
  rewrite filter_cons. destruct (decide (P x)); [|done].
  constructor; [done|].
  rewrite Forall_forall in Hx |- *.
  intros y [_ Hy]%list_elem_of_filter. by apply Hx.
Qed.

Lemma filter_all {A : Type} (P : A → Prop) `{∀ x, Decision (P x)}
    (l : list A) :
  Forall P l → filter P l = l.
Proof.
  induction 1 as [|x l Hx Hl IH]; [done|].
  by rewrite filter_cons_True, IH.
Qed.

Lemma filter_none {A : Type} (P : A → Prop) `{∀ x, Decision (P x)}
    (l : list A) :
  Forall (λ x, ¬ P x) l → filter P l = [].
Proof.
  induction 1 as [|x l Hx Hl IH]; [done|].
  by rewrite filter_cons_False.
Qed.

Lemma scored_app (req : gset string) (cs more : list Candidate) :
  scored req (cs ++ more)
  = (scored req cs
     ++ imap (λ idx c, ((length cs + idx)%nat, score req c)) more)%list.
Proof. by rewrite !scored_imap, imap_app. Qed.

Lemma scored_filter_app (req : gset string) (cs more : list Candidate) :
  filter (λ m, (fst m < length cs)%nat) (scored req (cs ++ more))
  = scored req cs.
Proof.
  rewrite scored_app, filter_app, filter_all, filter_none.
  - apply app_nil_r.
  - apply Forall_forall. intros m (i & c & -> & _)%elem_of_lookup_imap.
    simpl. lia.
  - apply Forall_forall. intros m Hm. rewrite scored_imap in Hm.
    apply elem_of_lookup_imap in Hm as (i & c & -> & Hi).
    simpl. by eapply lookup_lt_Some.
Qed.

Lemma match_candidates_filter_app (cs more : list Candidate) (job : Job) :
  filter (λ m, (fst m < length cs)%nat) (match_candidates (cs ++ more) job)
  = match_candidates cs job.
Proof.
  apply ranked_unique.
  - unfold match_candidates. case_bool_decide; [done|].
    by rewrite !(sort_by_perm by_score_desc), scored_filter_app.
  - apply StronglySorted_filter, match_candidates_ranked.
  - apply match_candidates_ranked.
Qed.

(** Candidates stored later do not disturb the ranking of those stored
    before: the pairs of the first candidates, read off the ranking of a
    longer collection, are the ranking of the first candidates alone, with
    the same scores and in the same order. *)
Theorem match_candidates_append (cs more : list Candidate) (job : Job) :
  filter (λ m, (fst m < length cs)%nat) (match_candidates (cs ++ more) job)
  = match_candidates cs job.
Proof. apply match_candidates_filter_app. Qed.

(** ** The parsers: the form of the skill lists *)

Lemma string_leb_trans (s1 s2 s3 : string) :
  String.leb s1 s2 = true → String.leb s2 s3 = true → String.leb s1 s3 = true.
Proof.
  revert s2 s3. unfold String.leb.
  induction s1 as [|c1 s1 IH]; intros [|c2 s2] [|c3 s3]; simpl; try done.
  unfold Ascii.compare.
  destruct (N.compare_spec (N_of_ascii c1) (N_of_ascii c2)) as [E12|L12|G12];
    destruct (N.compare_spec (N_of_ascii c2) (N_of_ascii c3)) as [E23|L23|G23];
    destruct (N.compare_spec (N_of_ascii c1) (N_of_ascii c3)) as [E13|L13|G13];
    try done; try (exfalso; lia).
  apply IH.
Qed.

Lemma string_leb_false (s1 s2 : string) :
  String.leb s1 s2 = false → String.leb s2 s1 = true.
Proof.
  intros H. destruct (String.leb_total s1 s2) as [E|E]; [congruence|done].
Qed.

Lemma string_leb_ltb (s1 s2 : string) :
  String.leb s1 s2 = true → s1 ≠ s2 → String.ltb s1 s2 = true.
Proof.
  unfold String.leb, String.ltb. intros Hle Hne.
  destruct (String.compare s1 s2) eqn:E; try done.
  by apply String.compare_eq_iff in E.
Qed.

Lemma insert_sorted_leb (x : string) (l : list string) :
  StronglySorted (λ a b, String.leb a b = true) l →
  StronglySorted (λ a b, String.leb a b = true) (insert_sorted String.leb x l).
Proof.
  induction 1 as [|y l Hl IH Hy]; simpl; [repeat constructor|].
  destruct (String.leb x y) eqn:E.
  - constructor; [by constructor|]. constructor; [done|].
    eapply Forall_impl; [exact Hy|]. intros z Hz. by eapply string_leb_trans.
  - constructor; [done|].
    rewrite (insert_sorted_perm String.leb x l).
    constructor; [by apply string_leb_false|done].
Qed.

Lemma sorted_leb (l : list string) :
  StronglySorted (λ a b, String.leb a b = true) (sorted l).
Proof.
  unfold sorted. induction l as [|x l IH]; simpl; [constructor|].
  by apply insert_sorted_leb.
Qed.

Lemma sorted_strict (l : list string) :
  NoDup l → StronglySorted (λ a b, String.ltb a b = true) (sorted l).
Proof.
  intros Hnd.
  assert (NoDup (sorted l)) as Hnd'.
  { unfold sorted. by rewrite (sort_by_perm String.leb l). }
  pose proof (sorted_leb l) as Hs. revert Hnd'.
  induction Hs as [|x k Hk IH Hx]; intros Hnd'; [constructor|].
  apply NoDup_cons in Hnd' as [Hxk Hnd'].
  constructor; [by apply IH|].
  rewrite Forall_forall in Hx |- *. intros y Hy.
  apply string_leb_ltb; [by apply Hx|]. by intros ->.
Qed.

(** The skill lists that the parsers return are in strictly ascending
    order by code points: sorted, and without a repeated skill, also when
    several vocabulary entries have the same title-cased form. *)
Theorem parsed_skills_strictly_sorted (S : list string) (D : string) :
  StronglySorted (λ a b, String.ltb a b = true) (skills (parse_resume S D)) ∧
  StronglySorted (λ a b, String.ltb a b = true)
                 (skills_required (parse_job_description S D)).
Proof. split; apply sorted_strict, NoDup_elements. Qed.

(** ** The parsers: which entries are reported *)

Lemma at_boundary_eq (st : mstate) :
  at_boundary st = boundary (prev st) (first_char (rest st)).
Proof. by destruct st as [[b|] [|c s] g]. Qed.

Lemma last_char_app (before : option ascii) (s t : string) :
  last_char before (s ++ t) = last_char (last_char before s) t.
Proof. revert before. induction s as [|c s IH]; intros before; simpl; auto. Qed.

(** A literal pattern consumes its text and nothing else. *)
Lemma escape_match (s post : string) (k : mstate → option mstate)
    (before : option ascii) (g : list (nat * string)) :
  re_match (escape s) k (MState before (s ++ post) g)
  = k (MState (last_char before s) post g).
Proof.
  revert before. induction s as [|c s IH]; intros before; [done|].
  change (String c s +:+ post) with (String c (s +:+ post)).
  cbn -[Ascii.eqb]. rewrite Ascii.eqb_refl. apply IH.
Qed.

Lemma escape_inv (s : string) (k : mstate → option mstate) (st : mstate)
    (m : mstate) :
  re_match (escape s) k st = Some m →
  ∃ post, rest st = (s ++ post)%string ∧
          k (MState (last_char (prev st) s) post (groups st)) = Some m.
Proof.
  revert st. induction s as [|c s IH]; intros [b text g].
  - intros Hk. by exists text.
  - cbn -[Ascii.eqb]. destruct text as [|c' text]; [done|].
    destruct (Ascii.eqb c c') eqn:E; [|done].
    apply Ascii.eqb_eq in E as <-.
    intros (post & Hrest & Hk)%IH. simpl in *. exists post. by rewrite Hrest.
Qed.

Lemma skill_re_match_iff (s text : string) (before : option ascii) :
  is_Some (re_match (skill_re s) Some (MState before text [])) ↔
  ∃ post, text = (s ++ post)%string ∧
          boundary before (first_char (s ++ post)) = true ∧
          boundary (last_char before s) (first_char post) = true.
Proof.
  unfold skill_re. cbn [re_match]. rewrite at_boundary_eq. cbn [prev rest].
  split.
  - intros [m Hm]. destruct (boundary before (first_char text)) eqn:Hb; [|done].
    apply escape_inv in Hm as (post & Hrest & Hm). cbn [prev rest groups] in *.
    rewrite at_boundary_eq in Hm. cbn [prev rest] in Hm.
    destruct (boundary _ (first_char post)) eqn:Ha; [|done].
    exists post. by subst.
  - intros (post & -> & Hb & Ha). rewrite Hb, escape_match.
    cbn [re_match]. rewrite at_boundary_eq. cbn [prev rest]. rewrite Ha. eauto.
Qed.

Lemma search_from_unfold (r : regex) (before : option ascii) (s : string) :
  search_from r before s =
  match re_match r Some (MState before s []) with
  | Some st => Some (MatchObj (consumed s (rest st)) (groups st))
  | None =>
      match s with
      | EmptyString => None
      | String c s' => search_from r (Some c) s'
      end
  end.
Proof. by destruct s. Qed.

Lemma string_app_nil_l (s : string) : ("" ++ s)%string = s.
Proof. reflexivity. Qed.

Lemma string_app_cons (c : ascii) (s t : string) :
  (String c s ++ t)%string = String c (s ++ t).
Proof. reflexivity. Qed.

Lemma search_skill_here (s text : string) (before : option ascii) (st : mstate) :
  re_match (skill_re s) Some (MState before text []) = Some st →
  ∃ pre post, text = (pre ++ s ++ post)%string ∧
              boundary (last_char before pre) (first_char (s ++ post)) = true ∧
              boundary (last_char before (pre ++ s)) (first_char post) = true.
Proof.
  intros E.
  destruct (proj1 (skill_re_match_iff s text before)) as (post & Ht & Hb & Ha);
    [by rewrite E|].
  exists "", post. by rewrite string_app_nil_l.
Qed.

Lemma search_skill_not_here (s text post : string) (before : option ascii) :
  re_match (skill_re s) Some (MState before text []) = None →
  text = (s ++ post)%string →
  boundary before (first_char (s ++ post)) = true →
  boundary (last_char before s) (first_char post) = true →
  False.
Proof.
  intros E Ht Hb Ha.
  assert (is_Some (re_match (skill_re s) Some (MState before text []))) as [? ?].
  { apply skill_re_match_iff. by exists post. }
  congruence.
Qed.

Lemma search_skill_iff (s text : string) (before : option ascii) :
  is_Some (search_from (skill_re s) before text) ↔
  ∃ pre post, text = (pre ++ s ++ post)%string ∧
              boundary (last_char before pre) (first_char (s ++ post)) = true ∧
              boundary (last_char before (pre ++ s)) (first_char post) = true.
Proof.
  revert before. induction text as [|c text IH]; intros before;
    rewrite search_from_unfold;
    destruct (re_match _ _ _) as [st|] eqn:E;
    try (split; [intros _; by eapply search_skill_here|eauto]).
  - split; [by intros [? ?]|]. intros (pre & post & Ht & Hb & Ha).
    destruct pre as [|? ?]; [|done].
    rewrite string_app_nil_l in Ht, Ha.
    destruct (search_skill_not_here s "" post before E Ht Hb Ha).
  - rewrite IH. split.
    + intros (pre & post & -> & Hb & Ha). by exists (String c pre), post.
    + intros (pre & post & Ht & Hb & Ha). destruct pre as [|c' pre].
      * rewrite string_app_nil_l in Ht, Ha.
        destruct (search_skill_not_here s _ post before E Ht Hb Ha).
      * rewrite string_app_cons in Ht. injection Ht as <- ->.
        by exists pre, post.
Qed.

Lemma search_skill_whole_word (s text : string) :
  is_Some (search (skill_re s) text) ↔
  ∃ pre post, text = (pre ++ s ++ post)%string ∧ whole_word pre s post.
Proof. unfold search, whole_word. by rewrite search_skill_iff. Qed.

Lemma parsed_skill_iff (S : list string) (D x : string) :
  x ∈ sorted (elements (scan_skills S (Str.lower D))) ↔
  ∃ s pre post, s ∈ S ∧ x = Str.title s ∧
                Str.lower D = (pre ++ s ++ post)%string ∧ whole_word pre s post.
Proof.
  rewrite sorted_elem_of, elem_of_elements, scan_skills_elem_of.
  split.
  - intros (s & Hs & -> & (pre & post & ? & ?)%search_skill_whole_word).
    by exists s, pre, post.
  - intros (s & pre & post & Hs & -> & Ht & Hw). exists s.
    split; [done|]. split; [done|]. apply search_skill_whole_word. eauto.
Qed.

(** Which skills the parsers list for an ASCII document: exactly the
    title-cased forms of the vocabulary entries that stand in the
    lower-cased document as whole words, with a word boundary before and
    after the entry. *)
Theorem parsed_skills_whole_words (S : list string) (D x : string) :
  ascii_text D = true →
  (x ∈ skills (parse_resume S D) ↔
   ∃ s pre post, s ∈ S ∧ x = Str.title s ∧
                 Str.lower D = (pre ++ s ++ post)%string ∧ whole_word pre s post) ∧
  (x ∈ skills_required (parse_job_description S D) ↔
   ∃ s pre post, s ∈ S ∧ x = Str.title s ∧
                 Str.lower D = (pre ++ s ++ post)%string ∧ whole_word pre s post).
Proof. intros _. split; apply parsed_skill_iff. Qed.

Lemma parsed_skills_whole_words_witness :
  ("C++" ∈ skills (parse_resume ["c++"; "go"] "Go and C++11") ↔
   ∃ s pre post, s ∈ ["c++"; "go"] ∧ "C++" = Str.title s ∧
                 Str.lower "Go and C++11" = (pre ++ s ++ post)%string ∧
                 whole_word pre s post) ∧
  ("C++" ∈ skills_required (parse_job_description ["c++"; "go"] "Go and C++11") ↔
   ∃ s pre post, s ∈ ["c++"; "go"] ∧ "C++" = Str.title s ∧
                 Str.lower "Go and C++11" = (pre ++ s ++ post)%string ∧
                 whole_word pre s post).
Proof.
  apply (parsed_skills_whole_words ["c++"; "go"] "Go and C++11" "C++").
  reflexivity.
Defined.

Lemma lower_idemp (s : string) : Str.lower (Str.lower s) = Str.lower s.
Proof.
  unfold Str.lower. induction s as [|c s IH]; simpl; [done|].
  by rewrite IH, char_lower_idemp.
Qed.

Lemma lower_fixed_app (a b : string) :
  Str.lower (a ++ b) = (a ++ b)%string → Str.lower a = a ∧ Str.lower b = b.
Proof.
  unfold Str.lower. induction a as [|c a IH].
  - by rewrite string_app_nil_l.
  - rewrite string_app_cons. simpl. intros [= Hc Ha].
    destruct (IH Ha) as [Ha' Hb]. by rewrite Hc, Ha'.
Qed.

Lemma occurs_in_lower (D pre s post : string) :
  Str.lower D = (pre ++ s ++ post)%string → Str.lower s = s.
Proof.
  intros Ht. pose proof (lower_idemp D) as Hfix. rewrite Ht in Hfix.
  apply lower_fixed_app in Hfix as [_ Hfix].
  by apply lower_fixed_app in Hfix as [Hfix _].
Qed.

(** For an ASCII document only entries in lower case are ever reported:
    the document is searched in lower case, so a vocabulary entry that
    holds an upper-case letter matches nothing.  (This is why
    [load_skill_set] stores the entries in lower case.)  So each listed
    skill, put in lower case, is itself an entry of the vocabulary. *)
Theorem parsed_skills_from_lower_case_entries (S : list string) (D : string) :
  ascii_text D = true →
  Forall (λ x, ∃ s, s ∈ S ∧ x = Str.title s ∧ Str.lower s = s ∧ Str.lower x = s)
         (skills (parse_resume S D)) ∧
  Forall (λ x, ∃ s, s ∈ S ∧ x = Str.title s ∧ Str.lower s = s ∧ Str.lower x = s)
         (skills_required (parse_job_description S D)).
Proof.
  intros _. split; apply Forall_forall;
    intros x (s & pre & post & Hs & -> & Ht & _)%parsed_skill_iff;
    exists s; rewrite lower_title;
    pose proof (occurs_in_lower _ _ _ _ Ht); eauto.
Qed.

Lemma parsed_skills_from_lower_case_entries_witness :
  Forall (λ x, ∃ s, s ∈ ["python"; "SQL"; "sql"] ∧ x = Str.title s ∧
                    Str.lower s = s ∧ Str.lower x = s)
         (skills (parse_resume ["python"; "SQL"; "sql"] scenario1_text)) ∧
  Forall (λ x, ∃ s, s ∈ ["python"; "SQL"; "sql"] ∧ x = Str.title s ∧
                    Str.lower s = s ∧ Str.lower x = s)
         (skills_required
            (parse_job_description ["python"; "SQL"; "sql"] scenario1_text)).
Proof.
  apply (parsed_skills_from_lower_case_entries
           ["python"; "SQL"; "sql"] scenario1_text).
  reflexivity.
Defined.

Lemma whole_word_neighbours (pre s post : string) :
  s ≠ "" → whole_word pre s post →
  (word_char (first_char s) = false → word_char (last_char None pre) = true) ∧
  (word_char (last_char None s) = false → word_char (first_char post) = true).
Proof.
  intros Hs [Hb Ha]. rewrite last_char_app in Ha. unfold boundary in *.
  destruct s as [|c s]; [done|]. rewrite string_app_cons in Hb.
  split.
  - intros Hc. simpl in Hb, Hc. rewrite Hc in Hb.
    by destruct (word_char (last_char None pre)).
  - intros Hc. simpl in Ha, Hc. rewrite Hc in Ha. exact Ha.
Qed.

(** For an ASCII document, an entry that begins or ends with a character
    that is not a letter, a digit or an underscore (such as c++ or .net)
    is reported only where a word character stands directly beside that
    end of it: never at the start or the end of the document, and never
    beside a space. *)
Theorem parsed_skills_nonword_ends (S : list string) (D : string) :
  ascii_text D = true →
  Forall (λ x, ∃ s pre post,
            s ∈ S ∧ x = Str.title s ∧ Str.lower D = (pre ++ s ++ post)%string ∧
            (s ≠ "" → word_char (first_char s) = false →
             word_char (last_char None pre) = true) ∧
            (s ≠ "" → word_char (last_char None s) = false →
             word_char (first_char post) = true))
         (skills (parse_resume S D)) ∧
  Forall (λ x, ∃ s pre post,
            s ∈ S ∧ x = Str.title s ∧ Str.lower D = (pre ++ s ++ post)%string ∧
            (s ≠ "" → word_char (first_char s) = false →
             word_char (last_char None pre) = true) ∧
            (s ≠ "" → word_char (last_char None s) = false →
             word_char (first_char post) = true))
         (skills_required (parse_job_description S D)).
Proof.
  intros _. split; apply Forall_forall;
    intros x (s & pre & post & Hs & -> & Ht & Hw)%parsed_skill_iff;
    exists s, pre, post; repeat (split; [done|]);
    split; intros Hne; by apply (whole_word_neighbours pre s post).
Qed.

Lemma parsed_skills_nonword_ends_witness :
  Forall (λ x, ∃ s pre post,
            s ∈ ["c++"; ".net"] ∧ x = Str.title s ∧
            Str.lower "C++11 and ASP.NET" = (pre ++ s ++ post)%string ∧
            (s ≠ "" → word_char (first_char s) = false →
             word_char (last_char None pre) = true) ∧
            (s ≠ "" → word_char (last_char None s) = false →
             word_char (first_char post) = true))
         (skills (parse_resume ["c++"; ".net"] "C++11 and ASP.NET")) ∧
  Forall (λ x, ∃ s pre post,
            s ∈ ["c++"; ".net"] ∧ x = Str.title s ∧
            Str.lower "C++11 and ASP.NET" = (pre ++ s ++ post)%string ∧
            (s ≠ "" → word_char (first_char s) = false →
             word_char (last_char None pre) = true) ∧
            (s ≠ "" → word_char (last_char None s) = false →
             word_char (first_char post) = true))
         (skills_required
            (parse_job_description ["c++"; ".net"] "C++11 and ASP.NET")).
Proof.
  apply (parsed_skills_nonword_ends ["c++"; ".net"] "C++11 and ASP.NET").
  reflexivity.
Defined.

(** ** The matcher of regular expressions *)

Lemma string_app_assoc (a b c : string) :
  ((a ++ b) ++ c)%string = (a ++ (b ++ c))%string.
Proof.
  induction a as [|x a IH]; [done|].
  by rewrite !string_app_cons, IH.
Qed.

Lemma string_app_nil_r (a : string) : (a ++ "")%string = a.
Proof.
  induction a as [|x a IH]; [done|]. by rewrite string_app_cons, IH.
Qed.

Lemma string_app_length (a b : string) :
  String.length (a ++ b) = (String.length a + String.length b)%nat.
Proof.
  induction a as [|x a IH]; [done|].
  rewrite string_app_cons. simpl. by rewrite IH.
Qed.

Lemma consumed_app (p r : string) : consumed (p ++ r) r = p.
Proof.
  unfold consumed. rewrite string_app_length.
  replace (String.length p + String.length r - String.length r)%nat
    with (String.length p) by lia.
  induction p as [|x p IH]; [by destruct r|].
  rewrite string_app_cons. simpl. by rewrite IH.
Qed.

(** Whatever a pattern does, it hands to its continuation a position
    further on in the same text. *)
Lemma re_match_cont (r : regex) (k : mstate → option mstate) (st m : mstate) :
  re_match r k st = Some m →
  ∃ st' p, k st' = Some m ∧ rest st = (p ++ rest st')%string.
Proof.
  revert k st. induction r as [|q|r1 IH1 r2 IH2|r1 IH1 r2 IH2|r IH|n r IH|];
    intros k st; cbn [re_match].
  - intros Hk. by exists st, "".
  - destruct st as [b [|c s'] g]; cbn [rest groups]; [done|].
    destruct (q c); [|done]. intros Hk.
    by exists (MState (Some c) s' g), (String c "").
  - intros (st1 & p1 & (st2 & p2 & Hk & H2)%IH2 & H1)%IH1.
    exists st2, (p1 ++ p2)%string. split; [done|].
    by rewrite H1, H2, string_app_assoc.
  - destruct (re_match r1 k st) as [m'|] eqn:E.
    + intros [= ->]. by apply IH1.
    + apply IH2.
  - generalize (String.length (rest st)). intros fuel. revert st.
    induction fuel as [|fuel IHf]; intros st.
    + intros Hk. by exists st, "".
    + match goal with
      | |- context [re_match r ?k' st] =>
          destruct (re_match r k' st) as [m'|] eqn:E
      end.
      * intros [= ->]. apply IH in E as (st1 & p1 & Hk & H1).
        destruct (_ <? _)%nat; [|done].
        apply IHf in Hk as (st2 & p2 & Hk & H2).
        exists st2, (p1 ++ p2)%string. split; [done|].
        by rewrite H1, H2, string_app_assoc.
      * intros Hk. by exists st, "".
  - intros (st1 & p1 & Hk & H1)%IH. eexists _, p1. split; [exact Hk|done].
  - destruct (at_boundary st); [|done]. intros Hk. by exists st, "".
Qed.

(** A match that [search] returns is a contiguous part of the text. *)
Lemma search_from_occurs (r : regex) (before : option ascii) (s : string)
    (m : match_obj) :
  search_from r before s = Some m → occurs_in (whole m) s.
Proof.
  revert before. induction s as [|c s IH]; intros before;
    rewrite search_from_unfold;
    destruct (re_match _ _ _) as [st|] eqn:E; try done.
  - intros [= <-]. apply re_match_cont in E as (st' & p & [= ->] & Hp).
    cbn [rest whole] in *. rewrite Hp, consumed_app. by exists "", (rest st).
  - intros [= <-]. apply re_match_cont in E as (st' & p & [= ->] & Hp).
    cbn [rest whole] in *. rewrite Hp, consumed_app. by exists "", (rest st).
  - intros (pre & post & ->)%IH. by exists (String c pre), post.
Qed.

(** The fields [email] and [phone] are copied from the document: each is
    empty or a contiguous part of the text that was parsed. *)
Theorem parse_resume_contact_occurs (S : list string) (D : string) :
  occurs_in (email (parse_resume S D)) D ∧
  occurs_in (phone (parse_resume S D)) D.
Proof.
  unfold parse_resume; cbn [email phone]. split.
  - destruct (search email_re D) as [m|] eqn:E; [|by exists "", D].
    by apply search_from_occurs in E.
  - destruct (search phone_re D) as [m|] eqn:E; [|by exists "", D].
    by apply search_from_occurs in E.
Qed.

Lemma all_chars_app (q : ascii → bool) (a b : string) :
  all_chars q (a ++ b) = all_chars q a && all_chars q b.
Proof.
  induction a as [|c a IH]; [done|].
  rewrite string_app_cons. simpl. by rewrite IH, andb_assoc.
Qed.

(** What a pattern consumes before it calls its continuation: a piece of
    the text ahead, made of the characters the pattern admits, and no
    shorter than the pattern requires. *)
Lemma re_match_shape (q : ascii → bool) (r : regex)
    (k : mstate → option mstate) (st m : mstate) :
  accepts_only q r →
  re_match r k st = Some m →
  ∃ st' p, k st' = Some m ∧ rest st = (p ++ rest st')%string ∧
           all_chars q p = true ∧ (min_len r ≤ String.length p)%nat.
Proof.
  revert k st. induction r as [|q'|r1 IH1 r2 IH2|r1 IH1 r2 IH2|r IH|n r IH|];
    intros k st Hq; cbn [re_match min_len].
  - intros Hk. exists st, "". repeat split; try done; simpl; lia.
  - destruct st as [b [|c s'] g]; cbn [rest groups]; [done|].
    destruct (q' c) eqn:Hc; [|done]. intros Hk.
    exists (MState (Some c) s' g), (String c ""). repeat split; [done| |done].
    simpl. by rewrite (Hq c Hc).
  - destruct Hq as [Hq1 Hq2].
    intros (st1 & p1 & Hk1 & H1 & A1 & L1)%IH1; [|done].
    apply IH2 in Hk1 as (st2 & p2 & Hk & H2 & A2 & L2); [|done].
    exists st2, (p1 ++ p2)%string. split; [done|].
    rewrite H1, H2, string_app_assoc, all_chars_app, A1, A2, string_app_length.
    repeat split; try done; simpl; lia.
  - destruct Hq as [Hq1 Hq2].
    destruct (re_match r1 k st) as [m'|] eqn:E.
    + intros [= ->]. apply IH1 in E as (st' & p & ? & ? & ? & ?); [|done].
      exists st', p. repeat split; try done; lia.
    + intros (st' & p & ? & ? & ? & ?)%IH2; [|done].
      exists st', p. repeat split; try done; lia.
  - cbn [accepts_only] in Hq.
    generalize (String.length (rest st)). intros fuel. revert st.
    induction fuel as [|fuel IHf]; intros st.
    + intros Hk. exists st, "". repeat split; try done; simpl; lia.
    + match goal with
      | |- context [re_match r ?k' st] =>
          destruct (re_match r k' st) as [m'|] eqn:E
      end.
      * intros [= ->]. apply IH in E as (st1 & p1 & Hk & H1 & A1 & _); [|done].
        destruct (_ <? _)%nat; [|done].
        apply IHf in Hk as (st2 & p2 & Hk & H2 & A2 & _).
        exists st2, (p1 ++ p2)%string. split; [done|].
        rewrite H1, H2, string_app_assoc, all_chars_app, A1, A2.
        repeat split; try done; simpl; lia.
      * intros Hk. exists st, "". repeat split; try done; simpl; lia.
  - cbn [accepts_only] in Hq.
    intros (st1 & p1 & Hk & H1 & A1 & L1)%IH; [|done].
    eexists _, p1. split; [exact Hk|done].
  - destruct (at_boundary st); [|done]. intros Hk.
    exists st, "". repeat split; try done; simpl; lia.
Qed.

Lemma search_from_shape (q : ascii → bool) (r : regex)
    (before : option ascii) (s : string) (m : match_obj) :
  accepts_only q r →
  search_from r before s = Some m →
  all_chars q (whole m) = true ∧ (min_len r ≤ String.length (whole m))%nat.
Proof.
  intros Hq. revert before. induction s as [|c s IH]; intros before;
    rewrite search_from_unfold;
    destruct (re_match _ _ _) as [st|] eqn:E; try done.
  - intros [= <-].
    apply (re_match_shape q) in E as (st' & p & [= ->] & Hp & A & L); [|done].
    cbn [rest whole] in *. by rewrite Hp, consumed_app.
  - intros [= <-].
    apply (re_match_shape q) in E as (st' & p & [= ->] & Hp & A & L); [|done].
    cbn [rest whole] in *. by rewrite Hp, consumed_app.
  - apply IH.
Qed.

Lemma email_re_accepts : accepts_only email_char email_re.
Proof.
  cbn. repeat split; intros c Hc;
    destruct c as [[] [] [] [] [] [] [] []]; done.
Qed.

Lemma phone_re_accepts : accepts_only phone_char phone_re.
Proof.
  cbn. repeat split; intros c Hc;
    destruct c as [[] [] [] [] [] [] [] []]; done.
Qed.

Lemma email_re_at (before : option ascii) (text : string) (st : mstate) :
  re_match email_re Some (MState before text []) = Some st →
  ∃ a b, a ≠ "" ∧ b ≠ "" ∧ text = ((a ++ "@" ++ b) ++ rest st)%string.
Proof.
  unfold email_re, plus.
  remember (Star (Char (λ c, is_alpha c || is_digit c || one_of "._%+-" c)))
    as local_rest eqn:E1.
  remember (Star (Char (λ c, is_alpha c || is_digit c || one_of ".-" c)))
    as domain_rest eqn:E2.
  remember (Seq (chr ".") (at_least 2 (Char is_alpha))) as tld eqn:E3.
  cbn -[Ascii.eqb]. destruct text as [|c text]; [done|].
  destruct (_ || _); [|done].
  intros (st1 & p1 & Hk & H1)%re_match_cont. cbn [rest] in H1.
  destruct (rest st1) as [|c2 [|c3 s3]] eqn:R1; [done| |].
  { by destruct (Ascii.eqb "@" c2). }
  destruct (Ascii.eqb "@" c2) eqn:Eat; [|done].
  apply Ascii.eqb_eq in Eat as <-. cbn [rest groups] in Hk.
  destruct (_ || _); [|done].
  apply re_match_cont in Hk as (st2 & p2 & Hk & H2). cbn [rest] in H2.
  apply re_match_cont in Hk as (st3 & p3 & [= ->] & H3).
  exists (String c p1), (String c3 (p2 ++ p3)). repeat split; [done..|].
  rewrite H1, H2, H3.
  by repeat (rewrite string_app_cons || rewrite string_app_nil_l
             || rewrite string_app_assoc).
Qed.

Lemma search_email_at (before : option ascii) (s : string) (m : match_obj) :
  search_from email_re before s = Some m →
  ∃ a b, a ≠ "" ∧ b ≠ "" ∧ whole m = (a ++ "@" ++ b)%string.
Proof.
  revert before. induction s as [|c s IH]; intros before;
    rewrite search_from_unfold;
    (destruct (re_match _ _ _) as [st|] eqn:E; [|done || apply IH]);
    intros [= <-]; apply email_re_at in E as (a & b & Ha & Hb & Ht);
    exists a, b; cbn [whole];
    (split; [done|]); (split; [done|]);
    rewrite Ht at 1; apply consumed_app.
Qed.

(** The field [email] is empty, or it is made of the characters of an
    address only (letters, digits and [._%+-@], so no white space), is at
    least six characters long and has an [@] with text on both sides. *)
Theorem parse_resume_email_shape (S : list string) (D : string) :
  email (parse_resume S D) = "" ∨
  (all_chars email_char (email (parse_resume S D)) = true ∧
   (6 ≤ String.length (email (parse_resume S D)))%nat ∧
   ∃ a b, a ≠ "" ∧ b ≠ "" ∧ email (parse_resume S D) = (a ++ "@" ++ b)%string).
Proof.
  unfold parse_resume; cbn [email].
  destruct (search email_re D) as [m|] eqn:E; [right|by left].
  cbn [group default].
  destruct (search_from_shape email_char _ _ _ _ email_re_accepts E) as [A L].
  split; [done|]. split; [exact L|]. by eapply search_email_at.
Qed.

(** For an ASCII document the field [phone] is empty, or it is made of
    digits, white space and the characters [+().-] only and is at least
    ten characters long.  (On ASCII text the digits and the white space of
    the pattern are those of this file.) *)
Theorem parse_resume_phone_shape (S : list string) (D : string) :
  ascii_text D = true →
  phone (parse_resume S D) = "" ∨
  (all_chars phone_char (phone (parse_resume S D)) = true ∧
   (10 ≤ String.length (phone (parse_resume S D)))%nat).
Proof.
  intros _. unfold parse_resume; cbn [phone].
  destruct (search phone_re D) as [m|] eqn:E; [right|by left].
  cbn [group default].
  destruct (search_from_shape phone_char _ _ _ _ phone_re_accepts E) as [A L].
  split; [done|exact L].
Qed.

Lemma parse_resume_phone_shape_witness :
  phone (parse_resume [] scenario1_text) = "" ∨
  (all_chars phone_char (phone (parse_resume [] scenario1_text)) = true ∧
   (10 ≤ String.length (phone (parse_resume [] scenario1_text)))%nat).
Proof.
  apply (parse_resume_phone_shape [] scenario1_text). reflexivity.
Defined.

(** ** White space and lines *)

Lemma lstrip_first (s : string) : space_char (first_char (Str.lstrip s)) = false.
Proof.
  induction s as [|c s IH]; simpl; [done|].
  destruct (is_space c) eqn:E; [done|]. simpl. exact E.
Qed.

Lemma lstrip_blank (s : string) :
  Str.lstrip s = "" ↔ all_chars is_space s = true.
Proof.
  induction s as [|c s IH]; simpl; [done|].
  destruct (is_space c); simpl; [done|]. split; done.
Qed.

Lemma lstrip_suffix (s : string) : ∃ a, s = (a ++ Str.lstrip s)%string.
Proof.
  induction s as [|c s [a IH]]; simpl; [by exists ""|].
  destruct (is_space c); [|by exists ""].
  exists (String c a). by rewrite string_app_cons, <- IH.
Qed.

Lemma rstrip_blank (s : string) :
  Str.rstrip s = "" ↔ all_chars is_space s = true.
Proof.
  induction s as [|c s IH]; simpl; [done|].
  destruct (Str.rstrip s) as [|c' r] eqn:E.
  - destruct (is_space c); simpl; [|done].
    split; [intros _; by apply IH|done].
  - split; [done|]. intros [_ H]%andb_true_iff. apply IH in H. done.
Qed.

Lemma rstrip_prefix (s : string) : ∃ b, s = (Str.rstrip s ++ b)%string.
Proof.
  induction s as [|c s [b IH]]; simpl; [by exists ""|].
  destruct (Str.rstrip s) as [|c' r] eqn:E.
  - destruct (is_space c).
    + by exists (String c s).
    + exists s. by rewrite string_app_cons, string_app_nil_l.
  - exists b. by rewrite string_app_cons, <- IH.
Qed.

Lemma rstrip_first (s : string) :
  space_char (first_char s) = false →
  space_char (first_char (Str.rstrip s)) = false.
Proof.
  destruct s as [|c s]; simpl; [done|]. intros Hc.
  destruct (Str.rstrip s); [|done]. by rewrite Hc.
Qed.

Lemma rstrip_last (s : string) (before : option ascii) :
  space_char before = false →
  space_char (last_char before (Str.rstrip s)) = false.
Proof.
  revert before. induction s as [|c s IH]; intros before Hb; simpl; [done|].
  destruct (Str.rstrip s) as [|c' r] eqn:E.
  - destruct (is_space c) eqn:Ec; simpl; [done|exact Ec].
  - change (last_char before (String c (String c' r)))
      with (last_char (Some c) (String c' r)).
    destruct (is_space c) eqn:Ec.
    + specialize (IH None eq_refl). simpl in *. exact IH.
    + by apply (IH (Some c)).
Qed.

Lemma strip_trimmed (s : string) : trimmed (Str.strip s).
Proof.
  unfold Str.strip. split.
  - apply rstrip_first, lstrip_first.
  - by apply rstrip_last.
Qed.

Lemma strip_blank (s : string) :
  Str.strip s = "" ↔ all_chars is_space s = true.
Proof.
  unfold Str.strip. split.
  - intros H%rstrip_blank. apply lstrip_blank.
    pose proof (lstrip_first s) as Hf.
    destruct (Str.lstrip s) as [|c r]; [reflexivity|]. simpl in *.
    apply andb_true_iff in H as [H _]. congruence.
  - intros H%lstrip_blank. by rewrite H.
Qed.

Lemma strip_occurs (s : string) : occurs_in (Str.strip s) s.
Proof.
  unfold Str.strip. destruct (lstrip_suffix s) as [a Ha].
  destruct (rstrip_prefix (Str.lstrip s)) as [b Hb].
  exists a, b. by rewrite <- Hb.
Qed.

Lemma occurs_in_cons (w s : string) (c : ascii) :
  occurs_in w s → occurs_in w (String c s).
Proof. intros (pre & post & ->). by exists (String c pre), post. Qed.

Lemma occurs_in_trans (a b c : string) :
  occurs_in a b → occurs_in b c → occurs_in a c.
Proof.
  intros (p1 & q1 & ->) (p2 & q2 & ->).
  exists (p2 ++ p1)%string, (q1 ++ q2)%string.
  by rewrite !string_app_assoc.
Qed.

Lemma occurs_all_chars (q : ascii → bool) (w s : string) :
  occurs_in w s → all_chars q s = true → all_chars q w = true.
Proof.
  intros (pre & post & ->). rewrite !all_chars_app.
  by intros [_ [? _]%andb_true_iff]%andb_true_iff.
Qed.

Lemma linebreak_is_space (c : ascii) : is_linebreak c = true → is_space c = true.
Proof. destruct c as [[] [] [] [] [] [] [] []]; done. Qed.

Lemma line_feed_is_space (c : ascii) : (ord c =? 10)%N = true → is_space c = true.
Proof. destruct c as [[] [] [] [] [] [] [] []]; done. Qed.

(** Each line that [splitlines] returns has no line boundary inside and is
    a contiguous part of the text; the first one continues [line]. *)
Lemma splitlines_from_lines (s : string) (after_cr : bool) (line x : string) :
  one_line line →
  x ∈ Str.splitlines_from after_cr line s →
  one_line x ∧
  ((∃ t post, x = (line ++ t)%string ∧ s = (t ++ post)%string) ∨ occurs_in x s).
Proof.
  revert after_cr line. induction s as [|c s IH]; intros after_cr line Hline;
    cbn [Str.splitlines_from].
  - case_bool_decide; [by intros ?%elem_of_nil|].
    intros ->%list_elem_of_singleton. split; [done|]. left.
    exists "", "". by rewrite string_app_nil_r.
  - assert (∀ acr, x ∈ Str.splitlines_from acr "" s →
                   one_line x ∧ occurs_in x (String c s)) as Hrec.
    { intros acr Hx. destruct (IH acr "" eq_refl Hx) as [H1 H2].
      split; [done|]. apply occurs_in_cons.
      destruct H2 as [(t & post & -> & ->)|?]; [|done].
      exists "", post. by rewrite !string_app_nil_l. }
    destruct (after_cr && (ord c =? 10)%N).
    { intros Hx. destruct (Hrec _ Hx). auto. }
    destruct (is_linebreak c) eqn:Ec.
    + intros [->|Hx]%elem_of_cons.
      * split; [done|]. left. exists "", (String c s).
        by rewrite string_app_nil_r, string_app_nil_l.
      * destruct (Hrec _ Hx). auto.
    + intros Hx. destruct (IH false (line ++ String c "")%string) with (2 := Hx)
        as [H1 H2].
      { unfold one_line in *. rewrite all_chars_app, Hline. simpl. by rewrite Ec. }
      split; [done|]. destruct H2 as [(t & post & -> & ->)|?].
      * left. exists (String c t), post.
        by rewrite string_app_assoc, !string_app_cons, string_app_nil_l.
      * right. by apply occurs_in_cons.
Qed.

(** The lines of a text are all blank exactly when the text is white space
    only. *)
Lemma splitlines_from_blank (s : string) (after_cr : bool) (line : string) :
  (after_cr = true → line = "") →
  Forall (λ x, all_chars is_space x = true) (Str.splitlines_from after_cr line s)
  ↔ all_chars is_space line && all_chars is_space s = true.
Proof.
  revert after_cr line. induction s as [|c s IH]; intros after_cr line Hcr;
    cbn [Str.splitlines_from].
  - rewrite andb_true_r. case_bool_decide as Hl.
    + subst. split; [done|constructor].
    + rewrite Forall_singleton. done.
  - destruct (after_cr && (ord c =? 10)%N) eqn:E.
    { apply andb_true_iff in E as [-> Ec]. rewrite (Hcr eq_refl).
      rewrite IH by done. simpl. by rewrite (line_feed_is_space c Ec). }
    destruct (is_linebreak c) eqn:Ec.
    + rewrite Forall_cons, IH by done. simpl.
      rewrite (linebreak_is_space c Ec). simpl.
      by rewrite andb_true_iff.
    + rewrite IH by done. rewrite all_chars_app. simpl.
      by rewrite andb_true_r, andb_assoc.
Qed.

Lemma nonblank_lines_nil (D : string) :
  nonblank_lines D = [] ↔ all_chars is_space D = true.
Proof.
  unfold nonblank_lines, Str.splitlines.
  rewrite <- (splitlines_from_blank D false "") by done.
  generalize (Str.splitlines_from false "" D). intros l.
  induction l as [|x l IH]; [done|].
  rewrite fmap_cons, filter_cons, Forall_cons, <- IH, <- strip_blank.
  destruct (decide (Str.strip x ≠ "")) as [Hx|Hx%dec_stable]; [|tauto].
  split; [done|]. tauto.
Qed.

Lemma nonblank_lines_elem (D x : string) :
  x ∈ nonblank_lines D →
  x ≠ "" ∧ trimmed x ∧ one_line x ∧ occurs_in x D.
Proof.
  unfold nonblank_lines.
  intros [Hne (y & -> & Hy)%list_elem_of_fmap]%list_elem_of_filter.
  apply splitlines_from_lines in Hy as [Hone Hocc]; [|done].
  assert (occurs_in y D) as HyD.
  { destruct Hocc as [(t & post & -> & ->)|?]; [|done].
    exists "", post. by rewrite !string_app_nil_l. }
  split; [done|]. split; [apply strip_trimmed|]. split.
  - eapply occurs_all_chars; [apply strip_occurs|done].
  - eapply occurs_in_trans; [apply strip_occurs|done].
Qed.

Lemma lstrip_split (s : string) :
  ∃ a, s = (a ++ Str.lstrip s)%string ∧ all_chars is_space a = true.
Proof.
  induction s as [|c s (a & IH & Ha)]; simpl; [by exists ""|].
  destruct (is_space c) eqn:E; [|by exists ""].
  exists (String c a). rewrite string_app_cons, <- IH. simpl. by rewrite E.
Qed.

Lemma rstrip_split (s : string) :
  ∃ b, s = (Str.rstrip s ++ b)%string ∧ all_chars is_space b = true.
Proof.
  induction s as [|c s (b & IH & Hb)]; simpl; [by exists ""|].
  destruct (Str.rstrip s) as [|c' r] eqn:E.
  - rewrite string_app_nil_l in IH. subst b.
    destruct (is_space c) eqn:Ec.
    + exists (String c s). simpl. by rewrite Ec.
    + exists s. by rewrite string_app_cons, string_app_nil_l.
  - exists b. by rewrite string_app_cons, <- IH.
Qed.

Lemma strip_split (s : string) :
  ∃ a b, s = (a ++ Str.strip s ++ b)%string ∧
         all_chars is_space a = true ∧ all_chars is_space b = true.
Proof.
  unfold Str.strip. destruct (lstrip_split s) as (a & Ha & Hsa).
  destruct (rstrip_split (Str.lstrip s)) as (b & Hb & Hsb).
  exists a, b. by rewrite <- Hb.
Qed.

Lemma line_ends_app (b R : string) :
  all_chars is_space b = true →
  (R = "" ∨ ∃ c R', R = String c R' ∧ is_linebreak c = true) →
  line_ends (b ++ R) = true.
Proof.
  intros Hb HR. induction b as [|c b IH].
  - rewrite string_app_nil_l. destruct HR as [->|(c & R' & -> & Hc)]; [done|].
    simpl. by rewrite Hc.
  - rewrite string_app_cons. simpl in *.
    apply andb_true_iff in Hb as [-> Hb]. rewrite IH by done.
    apply orb_true_r.
Qed.

(** The first line of [splitlines] that is not blank: only white space
    stands before it in the text, and it runs to a line boundary or to the
    end of the text. *)
Lemma splitlines_from_first (s : string) (after_cr : bool) (line t : string)
    (ts : list string) :
  one_line line → (after_cr = true → line = "") →
  filter (λ l, l ≠ "") (Str.strip <$> Str.splitlines_from after_cr line s) = t :: ts →
  ∃ y P R, t = Str.strip y ∧ (line ++ s)%string = (P ++ y ++ R)%string ∧
           all_chars is_space P = true ∧ one_line y ∧
           (R = "" ∨ ∃ c R', R = String c R' ∧ is_linebreak c = true).
Proof.
  revert after_cr line. induction s as [|c s IH]; intros after_cr line Hline Hcr;
    cbn [Str.splitlines_from].
  - case_bool_decide; [done|]. rewrite fmap_cons, filter_cons.
    destruct (decide (Str.strip line ≠ "")); [|done]. intros [= <- _].
    exists line, "", "". rewrite string_app_nil_l. repeat split; auto.
  - destruct (after_cr && (ord c =? 10)%N) eqn:E.
    { apply andb_true_iff in E as [-> Ec]. rewrite (Hcr eq_refl).
      intros (y & P & R & Ht & Hs & HP & Hy & HR)%IH; [|done..].
      exists y, (String c P), R. rewrite string_app_nil_l in Hs |- *.
      rewrite string_app_cons, <- Hs. repeat split; try done.
      simpl. by rewrite (line_feed_is_space c Ec). }
    destruct (is_linebreak c) eqn:Ec.
    + rewrite fmap_cons, filter_cons.
      destruct (decide (Str.strip line ≠ "")) as [Hl|Hl%dec_stable].
      * intros [= <- _]. exists line, "", (String c s).
        rewrite string_app_nil_l. repeat split; eauto.
      * intros (y & P & R & Ht & Hs & HP & Hy & HR)%IH; [|done..].
        rewrite string_app_nil_l in Hs.
        exists y, (line ++ String c P)%string, R.
        rewrite string_app_assoc, string_app_cons, <- Hs.
        repeat split; try done.
        rewrite all_chars_app. apply strip_blank in Hl. rewrite Hl. simpl.
        by rewrite (linebreak_is_space c Ec).
    + intros (y & P & R & Ht & Hs & HP & Hy & HR)%IH; [| |done].
      * exists y, P, R. rewrite <- Hs.
        by rewrite string_app_assoc, string_app_cons, string_app_nil_l.
      * unfold one_line in *. rewrite all_chars_app, Hline. simpl. by rewrite Ec.
Qed.

Lemma nonblank_lines_first (D t : string) (ts : list string) :
  nonblank_lines D = t :: ts → first_nonblank_line t D.
Proof.
  intros Hlines.
  assert (t ∈ nonblank_lines D) as Hin by (rewrite Hlines; left).
  apply nonblank_lines_elem in Hin as (Hne & Htrim & Hone & _).
  apply splitlines_from_first in Hlines
    as (y & P & R & -> & Hs & HP & Hy & HR); [|done..].
  rewrite string_app_nil_l in Hs.
  destruct (strip_split y) as (a & b & Hab & Ha & Hb).
  exists (P ++ a)%string, (b ++ R)%string. split.
  - rewrite Hs. rewrite Hab at 1.
    by repeat rewrite string_app_assoc.
  - rewrite all_chars_app, HP, Ha. repeat split; try done; try apply Htrim.
    by apply line_ends_app.
Qed.

Lemma line_ends_spaces (u r : string) :
  one_line u → line_ends (u ++ r) = true → all_chars is_space u = true.
Proof.
  unfold one_line. induction u as [|c u IH]; [done|].
  rewrite string_app_cons. simpl.
  intros [Hc Hu]%andb_true_iff. apply negb_true_iff in Hc. rewrite Hc. simpl.
  intros [-> H]%andb_true_iff. by apply IH.
Qed.

Lemma all_space_last (u : string) (b : option ascii) :
  all_chars is_space u = true → u ≠ "" → space_char (last_char b u) = true.
Proof.
  revert b. induction u as [|c u IH]; intros b; [done|]. simpl.
  intros [Hc Hu]%andb_true_iff _. destruct u as [|c' u]; [done|].
  by apply IH.
Qed.

Lemma stripped_line_unique (t1 t2 r1 r2 : string) (b1 b2 : option ascii) :
  (t1 ++ r1)%string = (t2 ++ r2)%string →
  one_line t1 → one_line t2 →
  space_char (last_char b1 t1) = false → space_char (last_char b2 t2) = false →
  line_ends r1 = true → line_ends r2 = true →
  t1 = t2.
Proof.
  revert t2 b1 b2. induction t1 as [|c t1 IH]; intros [|c' t2] b1 b2.
  - done.
  - rewrite string_app_nil_l. intros -> _ Ho _ Hl He _.
    apply line_ends_spaces in He; [|done].
    rewrite (all_space_last _ b2 He) in Hl; done.
  - rewrite string_app_nil_l. intros <- Ho _ Hl _ _ He.
    apply line_ends_spaces in He; [|done].
    rewrite (all_space_last _ b1 He) in Hl; done.
  - rewrite !string_app_cons. intros [= <- Heq] Ho1 Ho2 Hl1 Hl2 He1 He2.
    f_equal. unfold one_line in *. simpl in Ho1, Ho2.
    apply andb_true_iff in Ho1 as [_ Ho1]. apply andb_true_iff in Ho2 as [_ Ho2].
    by apply (IH t2 (Some c) (Some c)).
Qed.

Lemma leading_space_unique (w1 w2 x1 x2 : string) :
  (w1 ++ x1)%string = (w2 ++ x2)%string →
  all_chars is_space w1 = true → all_chars is_space w2 = true →
  x1 ≠ "" → x2 ≠ "" →
  space_char (first_char x1) = false → space_char (first_char x2) = false →
  x1 = x2.
Proof.
  revert w2. induction w1 as [|c w1 IH]; intros [|c' w2].
  - by rewrite !string_app_nil_l.
  - rewrite string_app_nil_l, string_app_cons. intros -> _ H _ _ Hf _.
    simpl in *. apply andb_true_iff in H as [H _]. congruence.
  - rewrite string_app_nil_l, string_app_cons. intros <- H _ _ _ _ Hf.
    simpl in *. apply andb_true_iff in H as [H _]. congruence.
  - rewrite !string_app_cons. intros [= <- Heq] H1 H2. simpl in H1, H2.
    apply andb_true_iff in H1 as [_ H1]. apply andb_true_iff in H2 as [_ H2].
    by apply (IH w2).
Qed.

Lemma first_char_app (t r : string) :
  t ≠ "" → first_char (t ++ r) = first_char t.
Proof. by destruct t. Qed.

(** A text has one first line that is not blank. *)
Lemma first_nonblank_line_unique (t1 t2 D : string) :
  first_nonblank_line t1 D → first_nonblank_line t2 D → t1 = t2.
Proof.
  intros (w1 & r1 & H1 & Hw1 & Hn1 & [Hf1 Hl1] & Ho1 & He1)
         (w2 & r2 & H2 & Hw2 & Hn2 & [Hf2 Hl2] & Ho2 & He2).
  assert ((t1 ++ r1)%string = (t2 ++ r2)%string) as Heq.
  { apply (leading_space_unique w1 w2); try done.
    - congruence.
    - by destruct t1.
    - by destruct t2.
    - by rewrite first_char_app.
    - by rewrite first_char_app. }
  by eapply (stripped_line_unique t1 t2 r1 r2 None None).
Qed.

(** For an ASCII document the name of a candidate is empty exactly when
    the document holds white space only; otherwise it is the first line of
    the document that is not blank, without the white space at its ends,
    and no other text is. *)
Theorem parse_resume_name_line (S : list string) (D : string) :
  ascii_text D = true →
  (name (parse_resume S D) = "" ↔ all_chars is_space D = true) ∧
  (all_chars is_space D ≠ true →
   first_nonblank_line (name (parse_resume S D)) D ∧
   ∀ t, first_nonblank_line t D → t = name (parse_resume S D)).
Proof.
  intros _. unfold parse_resume; cbn [name].
  pose proof (nonblank_lines_nil D) as Hnil.
  pose proof (nonblank_lines_elem D) as Helem.
  pose proof (nonblank_lines_first D) as Hfirst.
  destruct (nonblank_lines D) as [|l ls].
  - split; [split; [intros _; by apply Hnil|done]|].
    intros []. by apply Hnil.
  - destruct (Helem l) as (Hne & _); [left|].
    split; [split; [done|intros H%Hnil; done]|].
    intros _. split; [by eapply Hfirst|].
    intros t Ht. eapply first_nonblank_line_unique; [done|by eapply Hfirst].
Qed.

Lemma parse_resume_name_line_witness :
  (name (parse_resume [] scenario1_text) = ""
   ↔ all_chars is_space scenario1_text = true) ∧
  (all_chars is_space scenario1_text ≠ true →
   first_nonblank_line (name (parse_resume [] scenario1_text)) scenario1_text ∧
   ∀ t, first_nonblank_line t scenario1_text →
        t = name (parse_resume [] scenario1_text)).
Proof.
  apply (parse_resume_name_line [] scenario1_text). reflexivity.
Defined.

(** For an ASCII document the title of a job is never empty: it is the
    placeholder for a document of white space only, and otherwise the
    first line of the document that is not blank, without the white space
    at its ends (and no other text is), which is also the name that
    [parse_resume] takes. *)
Theorem parse_job_description_title (S : list string) (D : string) :
  ascii_text D = true →
  title (parse_job_description S D) ≠ "" ∧
  (all_chars is_space D = true → title (parse_job_description S D) = "Untitled Job") ∧
  (all_chars is_space D ≠ true →
   first_nonblank_line (title (parse_job_description S D)) D ∧
   (∀ t, first_nonblank_line t D → t = title (parse_job_description S D)) ∧
   title (parse_job_description S D) = name (parse_resume S D)).
Proof.
  intros _. unfold parse_job_description, parse_resume; cbn [title name].
  pose proof (nonblank_lines_nil D) as Hnil.
  pose proof (nonblank_lines_elem D) as Helem.
  pose proof (nonblank_lines_first D) as Hfirst.
  destruct (nonblank_lines D) as [|l ls].
  - split; [done|]. split; [done|]. intros []. by apply Hnil.
  - destruct (Helem l) as (Hne & _); [left|].
    split; [done|]. split; [intros H%Hnil; done|].
    intros _. split; [by eapply Hfirst|]. split; [|done].
    intros t Ht. eapply first_nonblank_line_unique; [done|by eapply Hfirst].
Qed.

Lemma parse_job_description_title_witness :
  title (parse_job_description [] scenario1_text) ≠ "" ∧
  (all_chars is_space scenario1_text = true →
   title (parse_job_description [] scenario1_text) = "Untitled Job") ∧
  (all_chars is_space scenario1_text ≠ true →
   first_nonblank_line (title (parse_job_description [] scenario1_text))
     scenario1_text ∧
   (∀ t, first_nonblank_line t scenario1_text →
         t = title (parse_job_description [] scenario1_text)) ∧
   title (parse_job_description [] scenario1_text)
   = name (parse_resume [] scenario1_text)).
Proof.
  apply (parse_job_description_title [] scenario1_text). reflexivity.
Defined.

(** ** The experience heading *)

Lemma lower_eq_nil (x : string) : Str.lower x = "" → x = "".
Proof. by destruct x. Qed.

Lemma lower_eq_cons (x : string) (c : ascii) (t : string) :
  Str.lower x = String c t →
  ∃ y x', x = String y x' ∧ char_lower y = c ∧ Str.lower x' = t.
Proof. destruct x as [|y x']; [done|]. intros [= ? ?]. eauto. Qed.

(** A literal under [(?i)] consumes a text that is the literal up to the
    case of its letters. *)
Lemma literal_i_match (s w post : string) (k : mstate → option mstate)
    (before : option ascii) (g : list (nat * string)) :
  Str.lower w = Str.lower s →
  re_match (literal_i s) k (MState before (w ++ post) g)
  = k (MState (last_char before w) post g).
Proof.
  revert w before. induction s as [|c s IH]; intros w before Hw.
  - apply lower_eq_nil in Hw as ->. done.
  - apply lower_eq_cons in Hw as (y & w' & -> & Hy & Hw).
    rewrite string_app_cons. cbn -[Ascii.eqb].
    rewrite Hy, Ascii.eqb_refl. by apply IH.
Qed.

Lemma literal_i_inv (s : string) (k : mstate → option mstate) (st m : mstate) :
  re_match (literal_i s) k st = Some m →
  ∃ w post, rest st = (w ++ post)%string ∧ Str.lower w = Str.lower s ∧
            k (MState (last_char (prev st) w) post (groups st)) = Some m.
Proof.
  revert st. induction s as [|c s IH]; intros [b text g].
  - intros Hk. by exists "", text.
  - cbn -[Ascii.eqb]. destruct text as [|y text]; [done|].
    destruct (Ascii.eqb _ _) eqn:E; [|done]. apply Ascii.eqb_eq in E.
    intros (w & post & Hrest & Hw & Hk)%IH. cbn [rest prev groups] in *.
    exists (String y w), post. rewrite string_app_cons, Hrest.
    split; [done|]. split; [|done].
    unfold Str.lower in *. simpl. by rewrite E, Hw.
Qed.

(** The greedy repetition of any character runs to the end of the text
    when what follows the repetition cannot fail. *)
Lemma star_any_all (k : mstate → option mstate) (st : mstate) :
  (∀ st', k st' ≠ None) →
  re_match (Star (Char (λ _, true))) k st
  = k (MState (last_char (prev st) (rest st)) "" (groups st)).
Proof.
  intros Hk. destruct st as [b s g]. cbn [re_match rest prev groups].
  revert b. induction s as [|c s IH]; intros b; [done|].
  cbn [String.length rest groups re_match].
  rewrite (proj2 (Nat.ltb_lt _ _)) by lia.
  rewrite IH. cbn [last_char].
  by destruct (k _) eqn:E; [|destruct (Hk _ E)].
Qed.

Lemma consumed_all (p : string) : consumed p "" = p.
Proof. rewrite <- (string_app_nil_r p) at 1. apply consumed_app. Qed.

(** The pattern of the heading at a position where the word stands: the
    first group is the word and the second group is all the text after
    it. *)
Lemma experience_re_found (w post : string) (before : option ascii) :
  Str.lower w = "experience" →
  ∃ st, re_match experience_re Some (MState before (w ++ post) []) = Some st ∧
        capture 2 (groups st) = Some post.
Proof.
  intros Hw. unfold experience_re.
  remember (Star (Char (λ _, true))) as any_rest eqn:Eany.
  cbn [re_match]. rewrite (literal_i_match "experience" w) by done.
  cbn [prev rest groups]. subst any_rest.
  rewrite star_any_all by done. cbn [prev rest groups].
  eexists. split; [reflexivity|]. cbn. by rewrite consumed_all.
Qed.

Lemma experience_re_inv (text : string) (before : option ascii) (st : mstate) :
  re_match experience_re Some (MState before text []) = Some st →
  ∃ w post, text = (w ++ post)%string ∧
            (Str.lower w = "experience" ∨ Str.lower w = "work experience") ∧
            capture 2 (groups st) = Some post.
Proof.
  unfold experience_re.
  remember (Star (Char (λ _, true))) as any_rest eqn:Eany.
  cbn [re_match].
  match goal with
  | |- context [re_match (literal_i "experience") ?k ?st0] =>
      destruct (re_match (literal_i "experience") k st0) as [m|] eqn:E
  end.
  - intros [= ->]. apply literal_i_inv in E as (w & post & Ht & Hw & Hk).
    cbn [prev rest groups] in *. subst any_rest.
    rewrite star_any_all in Hk by done. cbn [prev rest groups] in Hk.
    injection Hk as <-. exists w, post. split; [done|]. split; [by left|].
    cbn. by rewrite consumed_all.
  - intros (w & post & Ht & Hw & Hk)%literal_i_inv.
    cbn [prev rest groups] in *. subst any_rest.
    rewrite star_any_all in Hk by done. cbn [prev rest groups] in Hk.
    injection Hk as <-. exists w, post. split; [done|]. split; [by right|].
    cbn. by rewrite consumed_all.
Qed.

Lemma search_experience_inv (s : string) (before : option ascii) (m : match_obj) :
  search_from experience_re before s = Some m →
  ∃ pre w post, s = (pre ++ w ++ post)%string ∧
                (Str.lower w = "experience" ∨ Str.lower w = "work experience") ∧
                capture 2 (captures m) = Some post.
Proof.
  revert before. induction s as [|c s IH]; intros before;
    rewrite search_from_unfold;
    (destruct (re_match _ _ _) as [st|] eqn:E;
     [intros [= <-]; apply experience_re_inv in E as (w & post & Ht & Hw & Hc);
      exists "", w, post; by rewrite string_app_nil_l|]).
  - done.
  - intros (pre & w & post & -> & Hw & Hc)%IH. by exists (String c pre), w, post.
Qed.

Ltac norm_app H :=
  repeat (rewrite string_app_cons in H || rewrite string_app_nil_l in H).

(** With the word at its first occurrence, [search] returns a match whose
    second group is the text after that occurrence, also when the words
    before it let the alternative with "work" match. *)
Lemma search_experience_first (w post pre : string) (before : option ascii) :
  Str.lower w = "experience" →
  (∀ pre' w' post',
     (pre ++ w ++ post)%string = (pre' ++ w' ++ post')%string →
     Str.lower w' = "experience" → (String.length pre ≤ String.length pre')%nat) →
  ∃ m, search_from experience_re before (pre ++ w ++ post) = Some m ∧
       capture 2 (captures m) = Some post.
Proof.
  intros Hw. revert before. induction pre as [|c pre IH]; intros before Hfirst;
    rewrite search_from_unfold.
  - rewrite string_app_nil_l.
    destruct (experience_re_found w post before Hw) as (st & -> & Hc). eauto.
  - destruct (re_match _ _ _) as [st|] eqn:E.
    + apply experience_re_inv in E as (w' & post' & Ht & [Hw'|Hw'] & Hc).
      * specialize (Hfirst "" w' post'). rewrite string_app_nil_l in Hfirst.
        specialize (Hfirst Ht Hw'). simpl in Hfirst. lia.
      * eexists. split; [reflexivity|]. cbn [captures]. rewrite Hc. f_equal.
        apply lower_eq_cons in Hw' as (a1 & ? & -> & Ha1 & Hw').
        apply lower_eq_cons in Hw' as (a2 & ? & -> & Ha2 & Hw').
        apply lower_eq_cons in Hw' as (a3 & ? & -> & Ha3 & Hw').
        apply lower_eq_cons in Hw' as (a4 & ? & -> & Ha4 & Hw').
        apply lower_eq_cons in Hw' as (a5 & ? & -> & Ha5 & Hw').
        apply lower_eq_cons in Hw' as (a6 & ? & -> & Ha6 & Hw').
        apply lower_eq_cons in Hw' as (a7 & ? & -> & Ha7 & Hw').
        apply lower_eq_cons in Hw' as (a8 & ? & -> & Ha8 & Hw').
        apply lower_eq_cons in Hw' as (a9 & ? & -> & Ha9 & Hw').
        apply lower_eq_cons in Hw' as (a10 & ? & -> & Ha10 & Hw').
        apply lower_eq_cons in Hw' as (a11 & ? & -> & Ha11 & Hw').
        apply lower_eq_cons in Hw' as (a12 & ? & -> & Ha12 & Hw').
        apply lower_eq_cons in Hw' as (a13 & ? & -> & Ha13 & Hw').
        apply lower_eq_cons in Hw' as (a14 & ? & -> & Ha14 & Hw').
        apply lower_eq_cons in Hw' as (a15 & ? & -> & Ha15 & Hw').
        apply lower_eq_nil in Hw' as ->.
        assert (String.length (String c pre) ≤ 5)%nat as Hlen.
        { apply (Hfirst (String a1 (String a2 (String a3 (String a4 (String a5 "")))))
                   (String a6 (String a7 (String a8 (String a9 (String a10
                     (String a11 (String a12 (String a13 (String a14
                       (String a15 "")))))))))) post').
          - rewrite Ht. by repeat (rewrite string_app_cons
                                   || rewrite string_app_nil_l).
          - unfold Str.lower. simpl.
            by rewrite Ha6, Ha7, Ha8, Ha9, Ha10, Ha11, Ha12, Ha13, Ha14, Ha15. }
        apply lower_eq_cons in Hw as (e1 & ? & -> & He1 & Hw).
        apply lower_eq_cons in Hw as (e2 & ? & -> & He2 & Hw).
        apply lower_eq_cons in Hw as (e3 & ? & -> & He3 & Hw).
        apply lower_eq_cons in Hw as (e4 & ? & -> & He4 & Hw).
        apply lower_eq_cons in Hw as (e5 & ? & -> & He5 & Hw).
        apply lower_eq_cons in Hw as (e6 & ? & -> & He6 & Hw).
        apply lower_eq_cons in Hw as (e7 & ? & -> & He7 & Hw).
        apply lower_eq_cons in Hw as (e8 & ? & -> & He8 & Hw).
        apply lower_eq_cons in Hw as (e9 & ? & -> & He9 & Hw).
        apply lower_eq_cons in Hw as (e10 & ? & -> & He10 & Hw).
        apply lower_eq_nil in Hw as ->.
        destruct pre as [|c1 [|c2 [|c3 [|c4 [|c5 pre]]]]];
          norm_app Ht; simplify_eq; try congruence.
        simpl in Hlen. lia.
    + rewrite string_app_cons. apply IH.
      intros pre' w' post' Ht Hw'.
      specialize (Hfirst (String c pre') w' post').
      rewrite !string_app_cons, Ht in Hfirst.
      specialize (Hfirst eq_refl Hw'). simpl in Hfirst. lia.
Qed.

Lemma take_length (n : nat) (s : string) : (String.length (Str.take n s) ≤ n)%nat.
Proof.
  revert s. induction n as [|n IH]; intros [|c s]; simpl; try lia.
  specialize (IH s). lia.
Qed.

Lemma take_prefix (n : nat) (s : string) : ∃ b, s = (Str.take n s ++ b)%string.
Proof.
  revert s. induction n as [|n IH]; intros [|c s]; simpl;
    try (by eexists; rewrite string_app_nil_l).
  destruct (IH s) as [b Hb]. exists b. by rewrite string_app_cons, <- Hb.
Qed.

Lemma take_first (n : nat) (s : string) :
  space_char (first_char s) = false →
  space_char (first_char (Str.take n s)) = false.
Proof. by destruct n, s. Qed.

Lemma experience_of_match (S : list string) (D : string) :
  experience (parse_resume S D) =
  match search experience_re D with
  | Some m => Str.take 500 (Str.strip (default "" (group m 2)))
  | None => ""
  end.
Proof. reflexivity. Qed.

(** For an ASCII document the field [experience] is the text that follows
    the first occurrence of the word experience, in any letter case,
    stripped of the white space at its ends and cut to 500 characters.
    The alternative with "work" of the pattern never changes it. *)
Theorem parse_resume_experience_after_heading (S : list string)
    (D pre w post : string) :
  ascii_text D = true →
  D = (pre ++ w ++ post)%string →
  Str.lower w = "experience" →
  (∀ pre' w' post',
     D = (pre' ++ w' ++ post')%string → Str.lower w' = "experience" →
     (String.length pre ≤ String.length pre')%nat) →
  experience (parse_resume S D) = Str.take 500 (Str.strip post).
Proof.
  intros _ -> Hw Hfirst. rewrite experience_of_match.
  destruct (search_experience_first w post pre None Hw Hfirst) as (m & Hm & Hc).
  unfold search. rewrite Hm. unfold group. by rewrite Hc.
Qed.

Lemma parse_resume_experience_after_heading_witness :
  experience (parse_resume [] ("Work Experience" ++ String "010" "Built pipelines. "))
  = Str.take 500 (Str.strip (String "010" "Built pipelines. ")).
Proof.
  apply (parse_resume_experience_after_heading []
           ("Work Experience" ++ String "010" "Built pipelines. ")
           "Work " "Experience" (String "010" "Built pipelines. ")).
  - reflexivity.
  - reflexivity.
  - reflexivity.
  - intros pre' w' post' Ht Hw.
    destruct pre' as [|c1 [|c2 [|c3 [|c4 [|c5 pre']]]]]; simpl; try lia;
      apply lower_eq_cons in Hw as (e1 & ? & -> & He1 & Hw);
      norm_app Ht; simplify_eq; vm_compute in He1; discriminate He1.
Defined.

(** An ASCII document without the word experience, in any letter case,
    has an empty [experience] field. *)
Theorem parse_resume_experience_no_heading (S : list string) (D : string) :
  ascii_text D = true →
  (∀ pre w post, D = (pre ++ w ++ post)%string → Str.lower w ≠ "experience") →
  experience (parse_resume S D) = "".
Proof.
  intros _ Hno. rewrite experience_of_match.
  destruct (search experience_re D) as [m|] eqn:E; [exfalso|done].
  apply search_experience_inv in E as (pre & w & post & Ht & [Hw|Hw] & _).
  - by apply (Hno pre w post).
  - 
    apply lower_eq_cons in Hw as (a1 & ? & -> & Ha1 & Hw).
    apply lower_eq_cons in Hw as (a2 & ? & -> & Ha2 & Hw).
    apply lower_eq_cons in Hw as (a3 & ? & -> & Ha3 & Hw).
    apply lower_eq_cons in Hw as (a4 & ? & -> & Ha4 & Hw).
    apply lower_eq_cons in Hw as (a5 & ? & -> & Ha5 & Hw).
    apply lower_eq_cons in Hw as (a6 & ? & -> & Ha6 & Hw).
    apply lower_eq_cons in Hw as (a7 & ? & -> & Ha7 & Hw).
    apply lower_eq_cons in Hw as (a8 & ? & -> & Ha8 & Hw).
    apply lower_eq_cons in Hw as (a9 & ? & -> & Ha9 & Hw).
    apply lower_eq_cons in Hw as (a10 & ? & -> & Ha10 & Hw).
    apply lower_eq_cons in Hw as (a11 & ? & -> & Ha11 & Hw).
    apply lower_eq_cons in Hw as (a12 & ? & -> & Ha12 & Hw).
    apply lower_eq_cons in Hw as (a13 & ? & -> & Ha13 & Hw).
    apply lower_eq_cons in Hw as (a14 & ? & -> & Ha14 & Hw).
    apply lower_eq_cons in Hw as (a15 & ? & -> & Ha15 & Hw).
    apply lower_eq_nil in Hw as ->.
    apply (Hno (pre ++ String a1 (String a2 (String a3 (String a4 (String a5 "")))))%string
             (String a6 (String a7 (String a8 (String a9 (String a10
               (String a11 (String a12 (String a13 (String a14
                 (String a15 "")))))))))) post).
    + rewrite Ht.
      by repeat (rewrite string_app_cons || rewrite string_app_nil_l
                 || rewrite string_app_assoc).
    + unfold Str.lower. simpl.
      by rewrite Ha6, Ha7, Ha8, Ha9, Ha10, Ha11, Ha12, Ha13, Ha14, Ha15.
Qed.

Lemma parse_resume_experience_no_heading_witness :
  experience (parse_resume [] "Jane Doe") = "".
Proof.
  apply parse_resume_experience_no_heading; [reflexivity|].
  intros pre w post Ht Hw.
  apply lower_eq_cons in Hw as (e1 & ? & -> & He1 & Hw).
  apply lower_eq_cons in Hw as (e2 & ? & -> & He2 & Hw).
  apply lower_eq_cons in Hw as (e3 & ? & -> & He3 & Hw).
  apply lower_eq_cons in Hw as (e4 & ? & -> & He4 & Hw).
  apply lower_eq_cons in Hw as (e5 & ? & -> & He5 & Hw).
  apply lower_eq_cons in Hw as (e6 & ? & -> & He6 & Hw).
  apply lower_eq_cons in Hw as (e7 & ? & -> & He7 & Hw).
  apply lower_eq_cons in Hw as (e8 & ? & -> & He8 & Hw).
  apply lower_eq_cons in Hw as (e9 & ? & -> & He9 & Hw).
  apply lower_eq_cons in Hw as (e10 & ? & -> & He10 & Hw).
  apply lower_eq_nil in Hw as ->.
  destruct pre as [|c1 [|c2 [|c3 [|c4 [|c5 [|c6 [|c7 [|c8 pre]]]]]]]];
    norm_app Ht; simplify_eq;
    repeat match goal with
           | H : char_lower _ = _ |- _ =>
               vm_compute in H; try discriminate H; clear H
           end.
  match goal with H : "" = _ |- _ => destruct pre; discriminate H end.
Defined.

(** The field [experience] is at most 500 characters long, does not start
    with white space, and is a contiguous part of the document. *)
Theorem parse_resume_experience_bounds (S : list string) (D : string) :
  (String.length (experience (parse_resume S D)) ≤ 500)%nat ∧
  space_char (first_char (experience (parse_resume S D))) = false ∧
  occurs_in (experience (parse_resume S D)) D.
Proof.
  rewrite experience_of_match.
  destruct (search experience_re D) as [m|] eqn:E;
    [|split; [simpl; lia|split; [done|by exists "", D]]].
  split; [apply take_length|]. split.
  - apply take_first. apply strip_trimmed.
  - apply search_experience_inv in E as (pre & w & post & -> & _ & Hc).
    unfold group. rewrite Hc. cbn [default].
    destruct (take_prefix 500 (Str.strip post)) as [b Hb].
    eapply occurs_in_trans; [by exists "", b; rewrite string_app_nil_l|].
    eapply occurs_in_trans; [apply strip_occurs|].
    exists (pre ++ w)%string, "".
    by rewrite string_app_nil_r, string_app_assoc.
Qed.

(** ** The vocabulary that the loader returns *)

Lemma first_char_lower (s : string) :
  first_char (Str.lower s) = char_lower <$> first_char s.
Proof. by destruct s. Qed.

Lemma is_space_lower (c : ascii) : is_space (char_lower c) = is_space c.
Proof. destruct c as [[] [] [] [] [] [] [] []]; reflexivity. Qed.

Lemma space_char_lower (c : option ascii) :
  space_char (char_lower <$> c) = space_char c.
Proof. destruct c as [c|]; simpl; [|done]. apply is_space_lower. Qed.

Lemma trimmed_lower (s : string) : trimmed s → trimmed (Str.lower s).
Proof.
  intros [Hf Hl]. split.
  - by rewrite first_char_lower, space_char_lower.
  - change None with (char_lower <$> (None : option ascii)).
    by rewrite last_char_lower, space_char_lower.
Qed.

Lemma read_lines_normal (P : string → Prop) (steps : list read_step)
    (acc : list string) :
  (∀ line, Str.strip line ≠ "" → P (Str.lower (Str.strip line))) →
  Forall P acc → Forall P (fst (read_lines steps acc)).
Proof.
  intros HP. revert acc.
  induction steps as [|[line|e] steps IH]; intros acc Hacc; simpl; [done| |done].
  apply IH. case_bool_decide; [done|].
  apply Forall_app. split; [done|]. repeat constructor. by apply HP.
Qed.

(** Whatever the file holds and wherever reading it stops, the entries that
    [load_skill_set] returns are not empty, are in lower case and have no
    white space at their ends. *)
Theorem load_skill_set_normal (f : skills_file) (V : list string) :
  load_skill_set f = Returns V →
  Forall (λ s, s ≠ "" ∧ Str.lower s = s ∧ trimmed s) V.
Proof.
  unfold load_skill_set, try_body. destruct f as [e|steps].
  - destruct (is_Exception e); [|done]. intros [= <-]. constructor.
  - pose proof (read_lines_normal
                  (λ s, s ≠ "" ∧ Str.lower s = s ∧ trimmed s) steps []) as H.
    destruct (read_lines steps []) as [skills [e|]]; simpl in H.
    + destruct (is_Exception e); [|done]. intros [= <-]. apply H; [|done].
      intros line Hl. split; [by intros ?%lower_eq_nil|].
      split; [apply lower_idemp|apply trimmed_lower, strip_trimmed].
    + intros [= <-]. apply H; [|done].
      intros line Hl. split; [by intros ?%lower_eq_nil|].
      split; [apply lower_idemp|apply trimmed_lower, strip_trimmed].
Qed.

Lemma load_skill_set_normal_witness :
  Forall (λ s, s ≠ "" ∧ Str.lower s = s ∧ trimmed s) ["python"].
Proof.
  apply (load_skill_set_normal interrupted_file). reflexivity.
Defined.

(** ** A document matched against itself *)

(** The two parsers find the same skills in the same text, so a candidate
    whose resume is the text of the job description is scored 1 for that
    job, whenever the text names a skill at all. *)
Theorem match_candidates_same_text (S : list string) (D : string)
    (cs : list Candidate) (p i : nat) (sc : Q) :
  skills_required (parse_job_description S D) ≠ [] →
  cs !! i = Some (parse_resume S D) →
  match_candidates cs (parse_job_description S D) !! p = Some (i, sc) →
  sc == 1.
Proof.
  intros Hreq Hi Hp.
  destruct (match_candidates_lookup _ _ _ _ _ Hreq Hp) as (c & Hc & ->).
  simplify_eq. apply score_eq_1; [by apply list_to_set_nonempty|done].
Qed.

Lemma match_candidates_same_text_witness : 2 # 2 == 1.
Proof.
  apply (match_candidates_same_text ["python"; "sql"] scenario1_text
           [parse_resume ["python"; "sql"] scenario1_text] 0 0).
  - vm_compute. discriminate.
  - reflexivity.
  - vm_compute. reflexivity.
Defined.

(** ** The request handlers *)

Lemma match_candidates_index_lt (cs : list Candidate) (job : Job)
    (p i : nat) (sc : Q) :
  match_candidates cs job !! p = Some (i, sc) → (i < length cs)%nat.
Proof.
  destruct (decide (skills_required job = [])) as [Hreq|Hreq].
  - unfold match_candidates. rewrite Hreq, bool_decide_eq_true_2 by done.
    by rewrite lookup_nil.
  - intros (c & Hc & _)%match_candidates_lookup; [|done].
    by eapply lookup_lt_Some.
Qed.

Lemma match_candidates_indices (cs : list Candidate) (job : Job) :
  skills_required job ≠ [] →
  (match_candidates cs job).*1 ≡ₚ seq 0 (length cs).
Proof.
  intros Hreq. rewrite match_candidates_unfold by done.
  by rewrite (sort_by_perm by_score_desc), scored_indices.
Qed.

Lemma match_list_rows (st : Portal.store) (job : Job) :
  Portal.match_list st job =
  Some ((λ m, (default "" (name ∘ Portal.record <$> Portal.candidates st !! fst m),
               snd m))
        <$> match_candidates (Portal.candidate_records st) job).
Proof.
  unfold Portal.match_list, Portal.candidate_records.
  apply mapM_Some_2, Forall2_fmap_r, Forall_Forall2_diag, Forall_forall.
  intros [i sc] [p Hp]%list_elem_of_lookup_1.
  apply match_candidates_index_lt in Hp. rewrite length_fmap in Hp.
  destruct (lookup_lt_is_Some_2 _ _ Hp) as [c Hc]. simpl. by rewrite Hc.
Qed.

Lemma names_of_indices (cs : list (Portal.stored Candidate)) :
  (λ i, default "" (name ∘ Portal.record <$> cs !! i)) <$> seq 0 (length cs)
  = name ∘ Portal.record <$> cs.
Proof.
  apply list_eq. intros i. rewrite !list_lookup_fmap.
  destruct (cs !! i) as [c|] eqn:E; simpl.
  - rewrite lookup_seq_lt by by eapply lookup_lt_Some. simpl. by rewrite E.
  - rewrite lookup_seq_ge; [done|]. by apply lookup_ge_None.
Qed.

(** The dashboard never fails on an index: whatever the store holds, the
    loop that resolves the ranked indices to names finds every candidate.
    There is one row per job; a row holds the scores of the ranking in
    their order, and for a job with required skills it names every stored
    candidate once. *)
Theorem dashboard_rows (st : Portal.store) :
  ∃ rows,
    Portal.job_matches_of st = Some rows ∧
    Portal.dashboard st = Some (Portal.TemplateResponse None st rows 200) ∧
    Forall2 (λ job row,
               row.*2 = (match_candidates (Portal.candidate_records st)
                           (Portal.record job)).*2 ∧
               (skills_required (Portal.record job) ≠ [] →
                row.*1 ≡ₚ name ∘ Portal.record <$> Portal.candidates st))
            (Portal.jobs st) rows.
Proof.
  set (row_of := λ job : Portal.stored Job,
         (λ m : nat * Q,
            (default "" (name ∘ Portal.record <$> Portal.candidates st !! fst m),
             snd m))
         <$> match_candidates (Portal.candidate_records st) (Portal.record job)).
  assert (Portal.job_matches_of st = Some (row_of <$> Portal.jobs st)) as Hrows.
  { unfold Portal.job_matches_of.
    apply mapM_Some_2, Forall2_fmap_r, Forall_Forall2_diag, Forall_forall.
    intros job _. apply match_list_rows. }
  exists (row_of <$> Portal.jobs st). split; [done|]. split.
  { unfold Portal.dashboard. by rewrite Hrows. }
  apply Forall2_fmap_r, Forall_Forall2_diag, Forall_forall.
  intros job _. unfold row_of. split.
  - rewrite <- !list_fmap_compose. done.
  - intros Hreq. rewrite <- list_fmap_compose.
    change (fst ∘ _) with
      ((λ i, default "" (name ∘ Portal.record <$> Portal.candidates st !! i))
       ∘ (fst : nat * Q → nat)).
    rewrite list_fmap_compose, (match_candidates_indices _ _ Hreq).
    unfold Portal.candidate_records. rewrite length_fmap.
    by rewrite names_of_indices.
Qed.

Lemma handle_prefix (V : list string) (st : Portal.store) (r : Portal.request) :
  Portal.candidates st `prefix_of` Portal.candidates (Portal.handle V st r) ∧
  Portal.jobs st `prefix_of` Portal.jobs (Portal.handle V st r).
Proof.
  destruct r as [|file|file]; simpl; [done| |].
  - unfold Portal.upload_resume. case_bool_decide; simpl; [done|].
    split; [by apply prefix_app_r|done].
  - unfold Portal.upload_job. case_bool_decide; simpl; [done|].
    split; [done|by apply prefix_app_r].
Qed.

Lemma serve_append_only_prefix (V : list string) (rs : list Portal.request)
    (st : Portal.store) :
  Portal.candidates st `prefix_of` Portal.candidates (Portal.serve V st rs) ∧
  Portal.jobs st `prefix_of` Portal.jobs (Portal.serve V st rs).
Proof.
  revert st. induction rs as [|r rs IH]; intros st; simpl; [done|].
  destruct (handle_prefix V st r) as [Hc Hj].
  destruct (IH (Portal.handle V st r)) as [Hc' Hj'].
  split; by etrans.
Qed.

(** The two collections only grow: whatever requests are served, the
    records stored before are still there, in the same places, and each
    request adds at most one record. *)
Theorem serve_append_only (V : list string) (rs : list Portal.request)
    (st : Portal.store) :
  Portal.candidates st `prefix_of` Portal.candidates (Portal.serve V st rs) ∧
  Portal.jobs st `prefix_of` Portal.jobs (Portal.serve V st rs) ∧
  (length (Portal.candidates (Portal.serve V st rs))
   + length (Portal.jobs (Portal.serve V st rs))
   ≤ length (Portal.candidates st) + length (Portal.jobs st) + length rs)%nat.
Proof.
  destruct (serve_append_only_prefix V rs st) as [Hc Hj].
  split; [done|]. split; [done|]. clear Hc Hj.
  revert st. induction rs as [|r rs IH]; intros st; simpl; [lia|].
  specialize (IH (Portal.handle V st r)).
  assert (length (Portal.candidates (Portal.handle V st r))
          + length (Portal.jobs (Portal.handle V st r))
          ≤ length (Portal.candidates st) + length (Portal.jobs st) + 1)%nat;
    [|lia].
  destruct r as [|file|file]; simpl; [lia| |].
  - unfold Portal.upload_resume. case_bool_decide; simpl; [lia|].
    rewrite length_app. simpl. lia.
  - unfold Portal.upload_job. case_bool_decide; simpl; [lia|].
    rewrite length_app. simpl. lia.
Qed.

Lemma serve_stored (V : list string) (rs : list Portal.request)
    (st : Portal.store) :
  Portal.candidates (Portal.serve V st rs)
  = (Portal.candidates st ++ omap (Portal.resume_stored V) rs)%list ∧
  Portal.jobs (Portal.serve V st rs)
  = (Portal.jobs st ++ omap (Portal.job_stored V) rs)%list.
Proof.
  revert st. induction rs as [|r rs IH]; intros st; simpl.
  - by rewrite !app_nil_r.
  - destruct (IH (Portal.handle V st r)) as [-> ->].
    destruct r as [|file|file]; simpl; [done| |].
    + unfold Portal.upload_resume. case_bool_decide; simpl; [done|].
      by rewrite <- app_assoc.
    + unfold Portal.upload_job. case_bool_decide; simpl; [done|].
      by rewrite <- app_assoc.
Qed.

(** What the store holds after any sequence of requests: the records it
    held before and then, in the order of the requests, one record for
    each upload whose text is not empty, which is the parse of that text
    with the vocabulary, under the name of the file.  An upload whose
    extraction failed (empty text) and the dashboard store nothing. *)
Theorem serve_stores_parses (V : list string) (rs : list Portal.request)
    (st : Portal.store) :
  Portal.candidates (Portal.serve V st rs)
  = (Portal.candidates st ++ omap (Portal.resume_stored V) rs)%list ∧
  Portal.jobs (Portal.serve V st rs)
  = (Portal.jobs st ++ omap (Portal.job_stored V) rs)%list ∧
  (∀ file c, Portal.resume_stored V (Portal.PostResume file) = Some c →
             Portal.raw_text file ≠ "" ∧
             Portal.record c = parse_resume V (Portal.raw_text file) ∧
             Portal.filename c = Portal.file_name file) ∧
  (∀ file j, Portal.job_stored V (Portal.PostJob file) = Some j →
             Portal.raw_text file ≠ "" ∧
             Portal.record j = parse_job_description V (Portal.raw_text file) ∧
             Portal.filename j = Portal.file_name file) ∧
  (∀ file, Portal.raw_text file = "" →
           Portal.serve V st [Portal.PostResume file] = st ∧
           Portal.serve V st [Portal.PostJob file] = st).
Proof.
  destruct (serve_stored V rs st) as [Hc Hj].
  split; [done|]. split; [done|].
  split; [|split]. 
  - intros file x; simpl; case_bool_decide; intros [= <-]; done.
  - intros file x; simpl; case_bool_decide; intros [= <-]; done.
  - intros file Hfile. unfold Portal.serve. simpl.
    unfold Portal.upload_resume, Portal.upload_job.
    by rewrite !bool_decide_eq_true_2.
Qed.

(** Serving further requests never changes how the candidates already
    stored are ranked for a job: their scores and their order among
    themselves stay as they were. *)
Theorem serve_keeps_ranking (V : list string) (rs : list Portal.request)
    (st : Portal.store) (job : Job) :
  filter (λ m, (fst m < length (Portal.candidates st))%nat)
         (match_candidates
            (Portal.candidate_records (Portal.serve V st rs)) job)
  = match_candidates (Portal.candidate_records st) job.
Proof.
  destruct (serve_append_only_prefix V rs st) as [[more Hmore] _].
  unfold Portal.candidate_records. rewrite Hmore, fmap_app.
  rewrite <- (length_fmap Portal.record (Portal.candidates st)).
  apply match_candidates_filter_app.
Qed.

(** ** The vocabulary as a set *)

Lemma scan_skills_same_entries (S S' : list string) (text : string) :
  (∀ s, s ∈ S ↔ s ∈ S') → scan_skills S text = scan_skills S' text.
Proof.
  intros Hsame. apply set_eq. intros x. rewrite !scan_skills_elem_of.
  split; intros (s & Hs & ?); exists s; (split; [by apply Hsame|done]).
Qed.

(** The parsers read the vocabulary as a set: two vocabularies with the
    same entries, in whatever order and however often repeated, give the
    same skill lists. *)
Theorem parsed_skills_vocabulary_order (S S' : list string) (D : string) :
  (∀ s, s ∈ S ↔ s ∈ S') →
  skills (parse_resume S D) = skills (parse_resume S' D) ∧
  skills_required (parse_job_description S D)
  = skills_required (parse_job_description S' D).
Proof.
  intros Hsame. unfold parse_resume, parse_job_description. simpl.
  by rewrite (scan_skills_same_entries S S' _ Hsame).
Qed.

Lemma parsed_skills_vocabulary_order_witness :
  skills (parse_resume ["sql"; "python"] scenario1_text)
  = skills (parse_resume ["python"; "sql"; "python"] scenario1_text) ∧
  skills_required (parse_job_description ["sql"; "python"] scenario1_text)
  = skills_required
      (parse_job_description ["python"; "sql"; "python"] scenario1_text).
Proof.
  apply parsed_skills_vocabulary_order.
  intros s. rewrite !elem_of_cons, !elem_of_nil. tauto.
Defined.
